(** * FTCS scheme for the 1D diffusion equation

    Shallow embedding of the notebook [diffusion_1D_fd_schemes.ipynb]:
    parameter set-up, assembly of the tridiagonal matrix [A] and of the
    boundary vector [B], initialisation of the result arrays, and the
    time-marching loop [U_xt <- A . U_xt + B].

    The notebook computes with Python ints, Python floats and numpy
    [float64] arrays.  The embedding is written once over an abstract scalar
    type (class [Scalar]).  The instance the code runs on is [float]:
    IEEE-754 binary64, Rocq's primitive floats, executable and specified by
    [Prim2SF].  The instance [R], the real numbers, is the arithmetic the
    scheme is derived in; it serves only where a statement names an exact
    value.  Python exceptions are modelled by the error monad [result].

    The grid cell ([np.arange]) and the initial-condition cell ([np.sin])
    call numpy routines whose binary64 results the notebook does not
    determine; what they bind enters the statements as the workspace fields
    [x], [t0] and [U_xt]. *)

From Stdlib Require Import ZArith Reals Lra Lia.
From Stdlib Require Import Floats.
From stdpp Require Import base list.

(** ** Exceptions *)

Inductive exn : Set :=
  | ZeroDivisionError
  | OverflowError
  | IndexError
  | ValueError.

Inductive result (X : Type) : Type :=
  | Ok (a : X)
  | Raise (e : exn).
Arguments Ok {X} a.
Arguments Raise {X} e.

Definition bind {X Y} (c : result X) (k : X -> result Y) : result Y :=
  match c with
  | Ok a => k a
  | Raise e => Raise e
  end.

Notation "v <- c ;; k" := (bind c (fun v => k))
  (at level 100, c at next level, right associativity).

Definition is_ok {X} (c : result X) : bool :=
  match c with Ok _ => true | Raise _ => false end.

Definition result_map {X Y} (f : X -> Y) (c : result X) : result Y :=
  v <- c ;; Ok (f v).

(** ** Scalars

    [of_int] is the int-to-float conversion Python inserts in mixed
    arithmetic, [of_quot a b] is the scalar nearest to the quotient of the
    ints [a] and [b] (Python divides two ints exactly and rounds once),
    [fpow] is the C library's [pow] with an integral exponent, [is_zero] is
    the test behind [ZeroDivisionError], [is_inf] the one behind
    [OverflowError]. *)

Class Scalar (F : Type) := {
  of_int : Z -> F;
  of_quot : Z -> Z -> F;
  fadd : F -> F -> F;
  fsub : F -> F -> F;
  fmul : F -> F -> F;
  fdiv : F -> F -> F;
  fpow : F -> Z -> F;
  is_zero : F -> bool;
  is_inf : F -> bool
}.

(** *** binary64 *)

Fixpoint pos_to_float (p : positive) : float :=
  match p with
  | xH => 1%float
  | xO q => PrimFloat.mul 2%float (pos_to_float q)
  | xI q => PrimFloat.add (PrimFloat.mul 2%float (pos_to_float q)) 1%float
  end.

(** Exact for [|z| < 2^53], which covers every int of the notebook. *)
Definition Z_to_float (z : Z) : float :=
  match z with
  | Z0 => 0%float
  | Zpos p => pos_to_float p
  | Zneg p => PrimFloat.opp (pos_to_float p)
  end.

(** An int as an unnormalised binary number with exponent 0. *)
Definition Z_to_SF (a : Z) : spec_float :=
  match a with
  | Z0 => S754_zero false
  | Zpos p => S754_finite false p 0
  | Zneg p => S754_finite true p 0
  end.

(** [a / b] on two ints: the exact quotient, rounded once to the nearest
    binary64 number (ties to even).  A quotient beyond the binary64 range
    comes out infinite. *)
Definition float_of_quot (a b : Z) : float :=
  SF2Prim (SFdiv prec emax (Z_to_SF a) (Z_to_SF b)).

(** [pow(x, e)] of the C library for an integral [e].  The value below is
    the correctly rounded one for [e = 2] ([x * x], one rounding) and for a
    negative power whose [x ^ |e|] is exactly representable (such as
    [10 ** (-5)]): these are the two uses in the notebook.  The exceptions
    Python raises around [pow] are in [floatpow]. *)
Definition float_pow (x : float) (e : Z) : float :=
  match e with
  | Z0 => 1%float
  | Zpos p => Pos.iter_op PrimFloat.mul p x
  | Zneg p => PrimFloat.div 1%float (Pos.iter_op PrimFloat.mul p x)
  end.

#[export] Instance float_scalar : Scalar float := {|
  of_int := Z_to_float;
  of_quot := float_of_quot;
  fadd := PrimFloat.add;
  fsub := PrimFloat.sub;
  fmul := PrimFloat.mul;
  fdiv := PrimFloat.div;
  fpow := float_pow;
  is_zero := fun a => PrimFloat.eqb a 0%float;
  is_inf := PrimFloat.is_infinity
|}.

(** *** Real numbers

    Exact arithmetic: nothing rounds and nothing overflows. *)

Definition R_is_zero (a : R) : bool :=
  if Req_dec_T a 0%R then true else false.

#[export] Instance R_scalar : Scalar R := {|
  of_int := IZR;
  of_quot := fun a b => (IZR a / IZR b)%R;
  fadd := Rplus;
  fsub := Rminus;
  fmul := Rmult;
  fdiv := Rdiv;
  fpow := powerRZ;
  is_zero := R_is_zero;
  is_inf := fun _ => false
|}.

(** ** Arrays

    A 1-D array is the list of its entries.  A 2-D array is the list of its
    rows together with the column count (which an array with no row still
    has).  [B], of shape [(n, 1)], is kept as the list of its [n] entries. *)

Record matrix (F : Type) := Matrix {
  ncols : nat;
  rows : list (list F)
}.
Arguments Matrix {F} ncols rows.
Arguments ncols {F} _.
Arguments rows {F} _.

(** [range(k)] *)
Definition py_range (k : Z) : list Z :=
  map Z.of_nat (seq 0 (Z.to_nat k)).

(** [for i in l: body] *)
Fixpoint for_in {St : Type} (l : list Z) (body : Z -> St -> result St)
  (st : St) : result St :=
  match l with
  | [] => Ok st
  | i :: l' => st' <- body i st ;; for_in l' body st'
  end.

(** Index normalisation of numpy: [-len <= i < len], negative indices count
    from the end, anything else raises [IndexError]. *)
Definition norm_index (len : nat) (i : Z) : result nat :=
  if ((0 <=? i) && (i <? Z.of_nat len))%Z then Ok (Z.to_nat i)
  else if ((- Z.of_nat len <=? i) && (i <? 0))%Z
       then Ok (Z.to_nat (i + Z.of_nat len))
       else Raise IndexError.

Section Arrays.
Context {F : Type} `{Scalar F}.

(** [np.zeros((k))] *)
Definition np_zeros1 (k : Z) : result (list F) :=
  if (k <? 0)%Z then Raise ValueError
  else Ok (replicate (Z.to_nat k) (of_int 0)).

(** [np.zeros((r, c))] *)
Definition np_zeros2 (r c : Z) : result (matrix F) :=
  if ((r <? 0) || (c <? 0))%Z then Raise ValueError
  else Ok (Matrix (Z.to_nat c)
             (replicate (Z.to_nat r) (replicate (Z.to_nat c) (of_int 0)))).

(** [v[i]] *)
Definition getitem (v : list F) (i : Z) : result F :=
  k <- norm_index (length v) i ;;
  match v !! k with
  | Some a => Ok a
  | None => Raise IndexError
  end.

(** [v[i] = a] *)
Definition setitem (v : list F) (i : Z) (a : F) : result (list F) :=
  k <- norm_index (length v) i ;;
  Ok (<[k := a]> v).

(** [M[i, j] = a] *)
Definition setitem2 (M : matrix F) (i j : Z) (a : F) : result (matrix F) :=
  r <- norm_index (length (rows M)) i ;;
  c <- norm_index (ncols M) j ;;
  Ok (Matrix (ncols M) (alter (fun row => <[c := a]> row) r (rows M))).

(** The value a 1-D array [v] takes when broadcast to length [c]. *)
Definition broadcast_to (c : nat) (v : list F) : result (list F) :=
  match v with
  | [a] => Ok (replicate c a)
  | _ => if (length v =? c)%nat then Ok v else Raise ValueError
  end.

(** [M[i, :] = v] *)
Definition setrow (M : matrix F) (i : Z) (v : list F) : result (matrix F) :=
  r <- norm_index (length (rows M)) i ;;
  row <- broadcast_to (ncols M) v ;;
  Ok (Matrix (ncols M) (<[r := row]> (rows M))).

(** Inner product, accumulated from the left.  numpy leaves the order of the
    additions to its BLAS back end; in exact arithmetic every order gives
    the same value, in binary64 this is one of the possible orders. *)
Definition dot (a v : list F) : F :=
  fold_left (fun acc p => fadd acc (fmul p.1 p.2)) (zip a v) (of_int 0).

(** [np.matmul(M, v[:, np.newaxis])], of shape [(nrows, 1)]. *)
Definition matmul (M : matrix F) (v : list F) : result (list F) :=
  if (ncols M =? length v)%nat
  then Ok (map (fun row => dot row v) (rows M))
  else Raise ValueError.

(** [u + b] for two arrays of shapes [(p, 1)] and [(q, 1)]. *)
Definition add_col (u b : list F) : result (list F) :=
  if (length u =? length b)%nat then Ok (zip_with fadd u b)
  else match u, b with
       | [a], _ => Ok (map (fun y => fadd a y) b)
       | _, [c] => Ok (map (fun y => fadd y c) u)
       | _, _ => Raise ValueError
       end.

(** Python's [/] on two ints: [ZeroDivisionError] for a zero divisor,
    [OverflowError] when the rounded quotient is too large for a float. *)
Definition truediv (a b : Z) : result F :=
  if (b =? 0)%Z then Raise ZeroDivisionError
  else let q := of_quot a b in
       if is_inf q then Raise OverflowError else Ok q.

(** Python's [/] on two floats. *)
Definition floatdiv (a b : F) : result F :=
  if is_zero b then Raise ZeroDivisionError else Ok (fdiv a b).

(** Python's [**] with a float base and an int exponent:
    [ZeroDivisionError] for a zero base with a negative exponent,
    [OverflowError] when [pow] leaves the float range from a finite base. *)
Definition floatpow (a : F) (e : Z) : result F :=
  if is_zero a && (e <? 0)%Z then Raise ZeroDivisionError
  else let r := fpow a e in
       if is_inf r && negb (is_inf a) then Raise OverflowError else Ok r.
End Arrays.

(** ** The notebook's variables

    [Cfg]: the literals of the first code cell.  [Par]: every scalar that
    cell binds.  [Ws]: the arrays (and [t0]) the later cells bind. *)

Module Cfg.
Record config (F : Type) := mk {
  x0 : Z; xL : Z; n : Z; m : Z; T : Z; kappa : F
}.
Arguments mk {F}.
Arguments x0 {F}.
Arguments xL {F}.
Arguments n {F}.
Arguments m {F}.
Arguments T {F}.
Arguments kappa {F}.
End Cfg.

Module Par.
Record params (F : Type) := mk {
  x0 : Z; xL : Z; L : Z; n : Z; dX : F; m : Z; T : Z; dT : F;
  kappa : F; s : F
}.
Arguments mk {F}.
Arguments x0 {F}.
Arguments xL {F}.
Arguments L {F}.
Arguments n {F}.
Arguments dX {F}.
Arguments m {F}.
Arguments T {F}.
Arguments dT {F}.
Arguments kappa {F}.
Arguments s {F}.
End Par.

Module Ws.
Record workspace (F : Type) := mk {
  A : matrix F; B : list F; x : list F; t0 : Z;
  U_xt : list F; U : matrix F; t : list F
}.
Arguments mk {F}.
Arguments A {F}.
Arguments B {F}.
Arguments x {F}.
Arguments t0 {F}.
Arguments U_xt {F}.
Arguments U {F}.
Arguments t {F}.
End Ws.

Section Notebook.
Context {F : Type} `{Scalar F}.

Local Abbreviation config := (Cfg.config F).
Local Abbreviation params := (Par.params F).
Local Abbreviation workspace := (Ws.workspace F).

(** The values written in the notebook: [n = 39], [m = 600], [T = 12000],
    [kappa = 10**(-5)] on the rod [0 .. 1]. *)
Definition notebook : config :=
  Cfg.mk 0 1 39 600 12000 (fpow (of_int 10) (-5)).

(** *** Cell "define the solution space and parameters"

    [L = xL-x0], [dX = L/(n+1)], [dT = T/m], [s = kappa*dT/(dX**2)]. *)
Definition cell_params (c : config) : result params :=
  let L := (Cfg.xL c - Cfg.x0 c)%Z in
  dX <- truediv L (Cfg.n c + 1) ;;
  dT <- truediv (Cfg.T c) (Cfg.m c) ;;
  dX2 <- floatpow dX 2 ;;
  s <- floatdiv (fmul (Cfg.kappa c) dT) dX2 ;;
  Ok (Par.mk (Cfg.x0 c) (Cfg.xL c) L (Cfg.n c) dX (Cfg.m c) (Cfg.T c) dT
        (Cfg.kappa c) s).

(** *** Cell "initialize the matrix A and vector B"

    [A = np.zeros((n,n))], the loop over [range(n)], [B = np.zeros((n, 1))]. *)

(** Body of [for i in range(n)]. *)
Definition assemble_row (n : Z) (s : F) (i : Z) (A : matrix F)
  : result (matrix F) :=
  let d := fsub (of_int 1) (fmul (of_int 2) s) in
  if (i =? 0)%Z then
    A1 <- setitem2 A i i d ;;
    setitem2 A1 i (i + 1) s
  else if (i =? n - 1)%Z then
    A1 <- setitem2 A i (i - 1) s ;;
    setitem2 A1 i i d
  else
    A1 <- setitem2 A i i d ;;
    A2 <- setitem2 A1 i (i - 1) s ;;
    setitem2 A2 i (i + 1) s.

Definition cell_assemble (p : params) (w : workspace) : result workspace :=
  A0 <- np_zeros2 (Par.n p) (Par.n p) ;;
  A1 <- for_in (py_range (Par.n p)) (assemble_row (Par.n p) (Par.s p)) A0 ;;
  B0 <- np_zeros1 (Par.n p) ;;
  Ok (Ws.mk A1 B0 (Ws.x w) (Ws.t0 w) (Ws.U_xt w) (Ws.U w) (Ws.t w)).

(** *** Cell "impose boundary conditions"

    [B[0] = s], [B[n-1] = s] (Dirichlet; the two Neumann lines are commented
    out in the notebook). *)
Definition cell_bc (p : params) (w : workspace) : result workspace :=
  B1 <- setitem (Ws.B w) 0 (Par.s p) ;;
  B2 <- setitem B1 (Par.n p - 1) (Par.s p) ;;
  Ok (Ws.mk (Ws.A w) B2 (Ws.x w) (Ws.t0 w) (Ws.U_xt w) (Ws.U w) (Ws.t w)).

(** *** Cell "initialize solution matrices"

    [U = np.zeros((m,n))], [U[0, :] = U_xt], [t = np.zeros((m))],
    [t[0] = t0]. *)
Definition cell_init (p : params) (w : workspace) : result workspace :=
  U0 <- np_zeros2 (Par.m p) (Par.n p) ;;
  U1 <- setrow U0 0 (Ws.U_xt w) ;;
  t_0 <- np_zeros1 (Par.m p) ;;
  t_1 <- setitem t_0 0 (of_int (Ws.t0 w)) ;;
  Ok (Ws.mk (Ws.A w) (Ws.B w) (Ws.x w) (Ws.t0 w) (Ws.U_xt w) U1 t_1).

(** *** Cell "march forward in time" *)

(** [np.matmul(A, U_xt[:, np.newaxis]) + B], flattened. *)
Definition update (A : matrix F) (B : list F) (U_xt : list F)
  : result (list F) :=
  AU <- matmul A U_xt ;;
  add_col AU B.

(** Body of [for i in range(m-1)]:
    [U_xt_n = np.matmul(A, U_xt[:, np.newaxis]) + B],
    [U[i+1, :] = U_xt_n.flatten()], [U_xt = U_xt_n.flatten()],
    [t[i+1] = t[i] + dT]. *)
Definition march_step (p : params) (i : Z) (w : workspace)
  : result workspace :=
  U_xt_n <- update (Ws.A w) (Ws.B w) (Ws.U_xt w) ;;
  U1 <- setrow (Ws.U w) (i + 1) U_xt_n ;;
  t_i <- getitem (Ws.t w) i ;;
  t_1 <- setitem (Ws.t w) (i + 1) (fadd t_i (Par.dT p)) ;;
  Ok (Ws.mk (Ws.A w) (Ws.B w) (Ws.x w) (Ws.t0 w) U_xt_n U1 t_1).

Definition cell_march (p : params) (w : workspace) : result workspace :=
  for_in (py_range (Par.m p - 1)) (march_step p) w.

End Notebook.

(** Closed form of the assembled matrix. *)
Section Tridiagonal.
Context {F : Type} `{Scalar F}.

Definition tri_entry (s : F) (i j : nat) : F :=
  if (i =? j)%nat then fsub (of_int 1) (fmul (of_int 2) s)
  else if ((j =? i + 1) || (i =? j + 1))%nat then s
  else of_int 0.

Definition tri_row (n : nat) (s : F) (i : nat) : list F :=
  map (tri_entry s i) (seq 0 n).

Definition tridiag (n : nat) (s : F) : matrix F :=
  Matrix n (map (tri_row n s) (seq 0 n)).

(** [B] after the Dirichlet cell. *)
Definition dirichlet_entry (n : nat) (s : F) (i : nat) : F :=
  if ((i =? 0) || (i =? n - 1))%nat then s else of_int 0.
End Tridiagonal.

(** The identity matrix. *)
Definition identity {F} `{Scalar F} (n : nat) : matrix F :=
  Matrix n (map (fun i => map (fun j => if (i =? j)%nat then of_int 1
                                        else of_int 0) (seq 0 n)) (seq 0 n)).

(** A loop body that also counts its completed executions. *)
Definition counted {St : Type} (body : Z -> St -> result St) (i : Z)
  (st : St * nat) : result (St * nat) :=
  st' <- body i st.1 ;; Ok (st', S st.2).

Definition empty_ws {F} : Ws.workspace F :=
  Ws.mk (Matrix 0 []) [] [] 0 [] (Matrix 0 []) [].

(** ** Predicates used by the statements about the marching loop *)

(** [A] is square of the size of [U_xt], and [B] has as many entries. *)
Definition well_shaped {F} (w : Ws.workspace F) : Prop :=
  ncols (Ws.A w) = length (Ws.U_xt w) /\
  length (rows (Ws.A w)) = length (Ws.U_xt w) /\
  length (Ws.B w) = length (Ws.U_xt w).

(** State of the workspace after [i] iterations of the marching loop started
    in [w0]. *)
Definition march_inv {F} `{Scalar F} (p : Par.params F) (w0 : Ws.workspace F)
  (i : nat) (w : Ws.workspace F) : Prop :=
  Ws.A w = Ws.A w0 /\ Ws.B w = Ws.B w0 /\
  ncols (Ws.U w) = length (Ws.U_xt w0) /\
  length (rows (Ws.U w)) = Z.to_nat (Par.m p) /\
  length (Ws.t w) = Z.to_nat (Par.m p) /\
  length (Ws.U_xt w) = length (Ws.U_xt w0) /\
  rows (Ws.U w) !! i = Some (Ws.U_xt w) /\
  rows (Ws.U w) !! 0%nat = Some (Ws.U_xt w0) /\
  Ws.t w !! 0%nat = Ws.t w0 !! 0%nat /\
  (forall k, (k < i)%nat -> exists u u',
      rows (Ws.U w) !! k = Some u /\ rows (Ws.U w) !! S k = Some u' /\
      update (Ws.A w0) (Ws.B w0) u = Ok u') /\
  (forall k, (k < i)%nat -> exists a,
      Ws.t w !! k = Some a /\ Ws.t w !! S k = Some (fadd a (Par.dT p))).

(** ** Predicates used by the determinism statements *)

(** Two computations end the same way: both raise the same exception, or
    both return, with related values. *)
Definition same_outcome {X Y} (R : X -> Y -> Prop) (c : result X)
  (c' : result Y) : Prop :=
  match c, c' with
  | Ok a, Ok a' => R a a'
  | Raise e, Raise e' => e = e'
  | _, _ => False
  end.

(** Two workspaces agree on what the marching loop reads to compute [U]. *)
Definition march_related {F} (w w' : Ws.workspace F) : Prop :=
  Ws.A w = Ws.A w' /\ Ws.B w = Ws.B w' /\ Ws.U_xt w = Ws.U_xt w' /\
  Ws.U w = Ws.U w' /\ length (Ws.t w) = length (Ws.t w').

(** ** Concrete values used in the statements *)

(** The binary64 number nearest to 0.32 (Python's literal [0.32]). *)
Definition float_0_32 : float := 0x1.47ae147ae147bp-2%float.

(** The notebook's configuration with no interior node. *)
Definition config_no_node : Cfg.config float :=
  Cfg.mk 0 1 0 600 12000 (fpow (of_int 10) (-5)).

(** The notebook's configuration with a negative total time, hence a
    negative time step. *)
Definition config_negative_time : Cfg.config float :=
  Cfg.mk 0 1 39 600 (-12000) (fpow (of_int 10) (-5)).

(** The notebook's configuration with no time step at all. *)
Definition config_no_step : Cfg.config float :=
  Cfg.mk 0 1 39 0 12000 (fpow (of_int 10) (-5)).

(** The notebook's configuration with a negative node count. *)
Definition config_negative_nodes : Cfg.config float :=
  Cfg.mk 0 1 (-2) 600 12000 (fpow (of_int 10) (-5)).

(** A small run in binary64: three interior nodes, four time levels,
    [s = 0.25]; every number is exactly representable. *)
Definition config_small : Cfg.config float :=
  Cfg.mk 0 1 3 4 8 0.0078125%float.

Definition params_small : Par.params float :=
  Par.mk 0 1 1 3 0.25%float 4 8 2%float 0.0078125%float 0.25%float.

Definition ws_small : Ws.workspace float :=
  Ws.mk (tridiag 3 0.25%float) [0.25; 0; 0.25]%float [0.25; 0.5; 0.75]%float 0
    [1; 2; 1]%float (Matrix 0 []) [].

(** The same arrays next to stale contents of another shape and another
    time step. *)
Definition params_small_other : Par.params float :=
  Par.mk 0 2 2 3 0.5%float 4 16 4%float 0.015625%float 0.25%float.

Definition ws_small_other : Ws.workspace float :=
  Ws.mk (tridiag 3 0.25%float) [0.25; 0; 0.25]%float [0.5; 1; 1.5]%float 7
    [1; 2; 1]%float (Matrix 2 [[5; 5]; [6; 6]]%float) [9; 9; 9; 9; 9]%float.

(** The small run after the cell that initialises [U] and [t], and the same
    with other time stamps. *)
Definition ws_small_ready : Ws.workspace float :=
  Ws.mk (tridiag 3 0.25%float) [0.25; 0; 0.25]%float [0.25; 0.5; 0.75]%float 0
    [1; 2; 1]%float
    (Matrix 3 [[1; 2; 1]; [0; 0; 0]; [0; 0; 0]; [0; 0; 0]]%float)
    [0; 0; 0; 0]%float.

Definition ws_small_ready_other : Ws.workspace float :=
  Ws.mk (tridiag 3 0.25%float) [0.25; 0; 0.25]%float [] 7
    [1; 2; 1]%float
    (Matrix 3 [[1; 2; 1]; [0; 0; 0]; [0; 0; 0]; [0; 0; 0]]%float)
    [5; 0; 0; 0]%float.

(** A single interior node. *)
Definition params_single : Par.params float :=
  Par.mk 0 1 1 1 0.5%float 4 8 2%float 0.03125%float 0.25%float.

(** Two interior nodes and zero diffusivity. *)
Definition config_frozen : Cfg.config float :=
  Cfg.mk 0 1 2 4 8 0%float.

Definition params_frozen : Par.params float :=
  Par.mk 0 1 1 2 0x1.5555555555555p-2%float 4 8 2%float 0%float 0%float.

(** The notebook's configuration on a rod of length [10**200]. *)
Definition config_long_rod : Cfg.config float :=
  Cfg.mk 0 (10 ^ 200) 39 600 12000 (fpow (of_int 10) (-5)).

(** ** Classes of binary64 numbers *)

(** A zero of either sign. *)
Definition fzero (z : float) : Prop :=
  exists b, Prim2SF z = S754_zero b.

(** Neither infinite nor [nan]. *)
Definition ffinite (y : float) : Prop :=
  match Prim2SF y with
  | S754_zero _ | S754_finite _ _ _ => True
  | _ => False
  end.

(** [+0.0] or a finite number other than zero: what adding a zero of either
    sign leaves bit for bit as it is. *)
Definition settled (a : float) : Prop :=
  match Prim2SF a with
  | S754_zero b => b = false
  | S754_finite _ _ _ => True
  | _ => False
  end.

(** [y], with [-0.0] turned into [+0.0]. *)
Definition unsigned_zero (y : float) : float :=
  if PrimFloat.eqb y 0%float then 0%float else y.

(** ** The sums [np.matmul] may form

    numpy hands the inner products of [np.matmul] to its BLAS back end,
    which is free to add the products in any order and grouping, and to start
    its accumulators from [+0.0].  [sums_to l r]: [r] is the value of one
    such summation of the numbers in [l]. *)
Inductive sums_to : list float -> float -> Prop :=
  | sums_one (y : float) : sums_to [y] y
  | sums_split (l l1 l2 : list float) (a b : float) :
      l ≡ₚ l1 ++ l2 -> sums_to l1 a -> sums_to l2 b ->
      sums_to l (PrimFloat.add a b).

(** What is summed for one entry of [np.matmul(A, U)]: the products of a row
    of [A] with [U], next to [k] accumulators started from [+0.0]. *)
Definition inner_products (row u : list float) (k : nat) : list float :=
  replicate k 0%float ++ zip_with PrimFloat.mul row u.

(** ** Proof steps shared by the cases of the parameter cell *)

(** A parameter cell that raises: the exception is the one at hand, the
    cell has not returned, and no later cell is run. *)
Ltac params_raise :=
  cbn [is_ok];
  split; [intros e [= <-]
         |split; [split; [done|intros (? & ? & ? & ? & ? & ?)]
                 |split; intros; discriminate]].

(** ** Sanity checks in binary64 *)

Example params_of_config_small : cell_params config_small = Ok params_small.
Proof. vm_compute. reflexivity. Qed.

Example assemble_small :
  result_map Ws.A (cell_assemble params_small empty_ws)
  = Ok (Matrix 3 [[0.5; 0.25; 0]; [0.25; 0.5; 0.25]; [0; 0.25; 0.5]]%float).
Proof. vm_compute. reflexivity. Qed.

Example assemble_and_bc_small :
  result_map (fun v => (Ws.A v, Ws.B v))
    (v <- cell_assemble params_small empty_ws ;; cell_bc params_small v)
  = Ok (Ws.A ws_small, Ws.B ws_small).
Proof. vm_compute. reflexivity. Qed.

Example march_small :
  result_map (fun v => (rows (Ws.U v), Ws.t v))
    (v <- cell_init params_small ws_small ;; cell_march params_small v)
  = Ok ([[1; 2; 1]; [1.25; 1.5; 1.25]; [1.25; 1.375; 1.25];
         [1.21875; 1.3125; 1.21875]], [0; 2; 4; 6])%float.
Proof. vm_compute. reflexivity. Qed.

(** ** Index and loop lemmas *)

Lemma bind_ok {X Y} (c : result X) (k : X -> result Y) (b : Y) :
  bind c k = Ok b -> exists a, c = Ok a /\ k a = Ok b.
Proof. destruct c as [a|e]; simpl; [eauto | discriminate]. Qed.

Lemma bind_Ok_l {X Y} (a : X) (k : X -> result Y) : bind (Ok a) k = k a.
Proof. reflexivity. Qed.

Lemma norm_index_in (len : nat) (i : nat) :
  (i < len)%nat -> norm_index len (Z.of_nat i) = Ok i.
Proof.
  intros Hi. unfold norm_index.
  replace ((0 <=? Z.of_nat i)%Z && (Z.of_nat i <? Z.of_nat len)%Z) with true.
  - by rewrite Nat2Z.id.
  - symmetry. apply andb_true_intro. split; [apply Z.leb_le|apply Z.ltb_lt]; lia.
Qed.

Lemma norm_index_ok (len : nat) (i : Z) (k : nat) :
  norm_index len i = Ok k -> (k < len)%nat.
Proof.
  unfold norm_index.
  destruct (Z.leb_spec 0 i), (Z.ltb_spec i (Z.of_nat len)); simpl;
    try (intros [= <-]; lia);
    destruct (Z.leb_spec (- Z.of_nat len) i), (Z.ltb_spec i 0); simpl;
    try discriminate; intros [= <-]; lia.
Qed.

Lemma py_range_S (k : nat) :
  py_range (Z.of_nat (S k)) = py_range (Z.of_nat k) ++ [Z.of_nat k].
Proof.
  unfold py_range. rewrite !Nat2Z.id, seq_S, map_app. reflexivity.
Qed.

Lemma py_range_length (k : Z) : length (py_range k) = Z.to_nat k.
Proof. unfold py_range. by rewrite length_map, length_seq. Qed.

Lemma for_in_app {St} (l1 l2 : list Z) (body : Z -> St -> result St)
    (st : St) :
  for_in (l1 ++ l2) body st = (st' <- for_in l1 body st ;; for_in l2 body st').
Proof.
  revert st. induction l1 as [|i l1 IH]; intros st; simpl; [done|].
  destruct (body i st) as [st'|e]; simpl; [apply IH | done].
Qed.

(** Invariant rule for [for i in range(k)]: the loop runs to completion. *)
Lemma for_in_range_inv {St} (P : nat -> St -> Prop)
    (body : Z -> St -> result St) (k : nat) (st : St) :
  P 0%nat st ->
  (forall i a, (i < k)%nat -> P i a ->
     exists a', body (Z.of_nat i) a = Ok a' /\ P (S i) a') ->
  exists st', for_in (py_range (Z.of_nat k)) body st = Ok st' /\ P k st'.
Proof.
  intros H0 Hstep. induction k as [|k IH].
  - exists st. by split.
  - destruct IH as (a & Ha & HP); [intros; apply Hstep; [lia|done]|].
    destruct (Hstep k a) as (a' & Hb & HP'); [lia|done|].
    exists a'. split; [|done].
    rewrite py_range_S, for_in_app, Ha. simpl. by rewrite Hb.
Qed.

(** ** Array lemmas *)

Lemma lookup_map {X Y} (f : X -> Y) (l : list X) (i : nat) :
  map f l !! i = f <$> (l !! i).
Proof. revert i. induction l as [|a l IH]; intros [|i]; simpl; auto. Qed.

Lemma lookup_map_seq {Y} (f : nat -> Y) (k i : nat) :
  (i < k)%nat -> map f (seq 0 k) !! i = Some (f i).
Proof. intros Hi. by rewrite lookup_map, lookup_seq_lt. Qed.

Lemma lookup_map_seq_ge {Y} (f : nat -> Y) (k i : nat) :
  (k <= i)%nat -> map f (seq 0 k) !! i = None.
Proof. intros Hi. by rewrite lookup_map, lookup_seq_ge. Qed.

Section ArrayLemmas.
Context {F : Type} `{Scalar F}.

Lemma setitem2_in (c : nat) (rs : list (list F)) (i j : nat) (a : F) :
  (i < length rs)%nat -> (j < c)%nat ->
  setitem2 (Matrix c rs) (Z.of_nat i) (Z.of_nat j) a
  = Ok (Matrix c (alter (fun row => <[j := a]> row) i rs)).
Proof.
  intros Hi Hj. unfold setitem2. simpl.
  rewrite (norm_index_in _ i Hi). simpl.
  by rewrite (norm_index_in _ j Hj).
Qed.

Lemma setitem_in (v : list F) (i : nat) (a : F) :
  (i < length v)%nat -> setitem v (Z.of_nat i) a = Ok (<[i := a]> v).
Proof. intros Hi. unfold setitem. by rewrite (norm_index_in _ i Hi). Qed.

Lemma getitem_in (v : list F) (i : nat) (a : F) :
  v !! i = Some a -> getitem v (Z.of_nat i) = Ok a.
Proof.
  intros Hi. unfold getitem.
  rewrite (norm_index_in _ i); [|by eapply lookup_lt_Some].
  simpl. by rewrite Hi.
Qed.

Lemma broadcast_to_same (c : nat) (v : list F) :
  length v = c -> broadcast_to c v = Ok v.
Proof.
  intros <-. destruct v as [|a [|b v]]; simpl; [done..|].
  by rewrite Nat.eqb_refl.
Qed.

Lemma setrow_in (c : nat) (rs : list (list F)) (i : nat) (v : list F) :
  (i < length rs)%nat -> length v = c ->
  setrow (Matrix c rs) (Z.of_nat i) v = Ok (Matrix c (<[i := v]> rs)).
Proof.
  intros Hi Hv. unfold setrow. simpl.
  rewrite (norm_index_in _ i Hi). simpl.
  by rewrite (broadcast_to_same _ _ Hv).
Qed.

Lemma update_same_shape (M : matrix F) (b v : list F) :
  ncols M = length v -> length (rows M) = length b ->
  update M b v = Ok (zip_with fadd (map (fun row => dot row v) (rows M)) b).
Proof.
  intros Hc Hr. unfold update, matmul, add_col.
  rewrite Hc, Nat.eqb_refl. simpl.
  by rewrite length_map, Hr, Nat.eqb_refl.
Qed.

Lemma update_length (M : matrix F) (b v u : list F) :
  ncols M = length v -> length (rows M) = length b ->
  update M b v = Ok u -> length u = length b.
Proof.
  intros Hc Hr. rewrite update_same_shape by done. intros [= <-].
  rewrite length_zip_with, length_map. lia.
Qed.

(** Entry [i] of [np.matmul(M, v) + b], read off the operands. *)
Lemma update_entries (M : matrix F) (b v u : list F) :
  update M b v = Ok u -> length (rows M) = length b ->
  length v = ncols M /\ length u = length b /\
  forall i a_i b_i, rows M !! i = Some a_i -> b !! i = Some b_i ->
    u !! i
    = Some (fadd (fold_left (fun acc q => fadd acc (fmul q.1 q.2))
                    (zip a_i v) (of_int 0)) b_i).
Proof.
  intros Hupd Hr.
  assert (ncols M = length v) as Hc.
  { unfold update, matmul in Hupd.
    destruct (Nat.eqb_spec (ncols M) (length v)); [done|discriminate]. }
  rewrite update_same_shape in Hupd by done. injection Hupd as <-.
  split; [done|]. split; [rewrite length_zip_with, length_map; lia|].
  intros i a_i b_i Ha Hb.
  by rewrite lookup_zip_with, lookup_map, Ha, Hb.
Qed.

(** *** The rows written by the assembly loop *)

Lemma first_row (n : nat) (s : F) :
  (2 <= n)%nat ->
  <[1%nat := s]> (<[0%nat := fsub (of_int 1) (fmul (of_int 2) s)]>
                    (replicate n (of_int 0)))
  = tri_row n s 0.
Proof.
  intros Hn. apply list_eq. intros j. unfold tri_row.
  destruct (decide (j < n)%nat) as [Hj|Hj].
  - rewrite lookup_map_seq by done. unfold tri_entry.
    destruct j as [|[|j]]; simpl.
    + rewrite list_lookup_insert_ne by done.
      by rewrite list_lookup_insert_eq by (rewrite length_replicate; lia).
    + by rewrite list_lookup_insert_eq
        by (rewrite length_insert, length_replicate; lia).
    + rewrite !list_lookup_insert_ne by done.
      by rewrite lookup_replicate_2.
  - rewrite lookup_map_seq_ge by lia.
    apply lookup_ge_None. rewrite !length_insert, length_replicate. lia.
Qed.

Lemma last_row (n : nat) (s : F) :
  (2 <= n)%nat ->
  <[(n - 1)%nat := fsub (of_int 1) (fmul (of_int 2) s)]>
    (<[(n - 2)%nat := s]> (replicate n (of_int 0)))
  = tri_row n s (n - 1).
Proof.
  intros Hn. apply list_eq. intros j. unfold tri_row.
  destruct (decide (j < n)%nat) as [Hj|Hj].
  - rewrite lookup_map_seq by done. unfold tri_entry.
    destruct (Nat.eqb_spec (n - 1) j) as [<-|Hne].
    + by rewrite list_lookup_insert_eq
        by (rewrite length_insert, length_replicate; lia).
    + rewrite list_lookup_insert_ne by done.
      destruct (Nat.eqb_spec j (n - 1 + 1)) as [->|_]; [lia|].
      destruct (Nat.eqb_spec (n - 1) (j + 1)) as [Heq|Hne']; simpl.
      * replace (n - 2)%nat with j by lia.
        by rewrite list_lookup_insert_eq by (rewrite length_replicate; lia).
      * rewrite list_lookup_insert_ne by lia.
        by rewrite lookup_replicate_2.
  - rewrite lookup_map_seq_ge by lia.
    apply lookup_ge_None. rewrite !length_insert, length_replicate. lia.
Qed.

Lemma middle_row (n : nat) (s : F) (i : nat) :
  (1 <= i)%nat -> (i + 1 < n)%nat ->
  <[(i + 1)%nat := s]>
    (<[(i - 1)%nat := s]>
       (<[i := fsub (of_int 1) (fmul (of_int 2) s)]>
          (replicate n (of_int 0))))
  = tri_row n s i.
Proof.
  intros Hi Hn. apply list_eq. intros j. unfold tri_row.
  destruct (decide (j < n)%nat) as [Hj|Hj].
  - rewrite lookup_map_seq by done. unfold tri_entry.
    destruct (Nat.eqb_spec i j) as [<-|Hne].
    + rewrite !list_lookup_insert_ne by lia.
      by rewrite list_lookup_insert_eq by (rewrite length_replicate; lia).
    + destruct (Nat.eqb_spec j (i + 1)) as [->|Hne1]; simpl.
      * by rewrite list_lookup_insert_eq
          by (rewrite !length_insert, length_replicate; lia).
      * rewrite (list_lookup_insert_ne _ (i + 1)) by lia.
        destruct (Nat.eqb_spec i (j + 1)) as [->|Hne2].
        -- replace (j + 1 - 1)%nat with j by lia.
           by rewrite list_lookup_insert_eq
             by (rewrite !length_insert, length_replicate; lia).
        -- rewrite !list_lookup_insert_ne by lia.
           by rewrite lookup_replicate_2.
  - rewrite lookup_map_seq_ge by lia.
    apply lookup_ge_None. rewrite !length_insert, length_replicate. lia.
Qed.
End ArrayLemmas.

(** ** Matrix assembly *)

Section Assembly.
Context {F : Type} `{Scalar F}.

Lemma setitem2_row (c : nat) (pre post : list (list F)) (row : list F)
    (i j : nat) (a : F) :
  length pre = i -> (j < c)%nat ->
  setitem2 (Matrix c (pre ++ row :: post)) (Z.of_nat i) (Z.of_nat j) a
  = Ok (Matrix c (pre ++ <[j := a]> row :: post)).
Proof.
  intros Hi Hj. rewrite setitem2_in; [|rewrite length_app; simpl; lia|done].
  rewrite alter_app_r_alt by lia.
  replace (i - length pre)%nat with 0%nat by lia. reflexivity.
Qed.

(** One iteration of the assembly loop turns the zero row [i] into row [i]
    of the closed form; it needs [n >= 2]. *)
Lemma assemble_row_spec (n : nat) (s : F) (i : nat) (pre post : list (list F)) :
  (2 <= n)%nat -> (i < n)%nat -> length pre = i ->
  assemble_row (Z.of_nat n) s (Z.of_nat i)
    (Matrix n (pre ++ replicate n (of_int 0) :: post))
  = Ok (Matrix n (pre ++ tri_row n s i :: post)).
Proof.
  intros Hn Hi Hpre. unfold assemble_row.
  destruct (Z.eqb_spec (Z.of_nat i) 0) as [Hz|Hz].
  - assert (i = 0%nat) as -> by lia.
    rewrite (setitem2_row n pre post _ 0 0) by (done || lia). simpl.
    change (0 + 1)%Z with (Z.of_nat 1).
    rewrite (setitem2_row n pre post _ 0 1) by (done || lia).
    by rewrite first_row.
  - destruct (Z.eqb_spec (Z.of_nat i) (Z.of_nat n - 1)) as [Hl|Hl].
    + assert (i = (n - 1)%nat) as -> by lia.
      replace (Z.of_nat (n - 1) - 1)%Z with (Z.of_nat (n - 2)) by lia.
      rewrite (setitem2_row n pre post _ (n - 1) (n - 2)) by (done || lia).
      simpl.
      rewrite (setitem2_row n pre post _ (n - 1) (n - 1)) by (done || lia).
      by rewrite last_row.
    + rewrite (setitem2_row n pre post _ i i) by (done || lia). simpl.
      replace (Z.of_nat i - 1)%Z with (Z.of_nat (i - 1)) by lia.
      rewrite (setitem2_row n pre post _ i (i - 1)) by (done || lia). simpl.
      replace (Z.of_nat i + 1)%Z with (Z.of_nat (i + 1)) by lia.
      rewrite (setitem2_row n pre post _ i (i + 1)) by (done || lia).
      rewrite middle_row by lia. reflexivity.
Qed.

Lemma assemble_loop (n : nat) (s : F) :
  (2 <= n)%nat ->
  for_in (py_range (Z.of_nat n)) (assemble_row (Z.of_nat n) s)
    (Matrix n (replicate n (replicate n (of_int 0))))
  = Ok (tridiag n s).
Proof.
  intros Hn.
  destruct (for_in_range_inv
    (fun i M => M = Matrix n (map (tri_row n s) (seq 0 i)
                              ++ replicate (n - i) (replicate n (of_int 0))))
    (assemble_row (Z.of_nat n) s) n
    (Matrix n (replicate n (replicate n (of_int 0)))))
    as (M & HM & ->).
  - simpl. by rewrite Nat.sub_0_r.
  - intros i M Hi ->. eexists. split; [|reflexivity].
    replace (n - i)%nat with (S (n - S i)) by lia. rewrite replicate_S.
    rewrite assemble_row_spec by (rewrite ?length_map, ?length_seq; lia).
    rewrite seq_S, map_app. simpl. by rewrite <- app_assoc.
  - rewrite HM, Nat.sub_diag. simpl. by rewrite app_nil_r.
Qed.

Lemma cell_assemble_spec (p : Par.params F) (w : Ws.workspace F) :
  (2 <= Par.n p)%Z ->
  cell_assemble p w
  = Ok (Ws.mk (tridiag (Z.to_nat (Par.n p)) (Par.s p))
          (replicate (Z.to_nat (Par.n p)) (of_int 0))
          (Ws.x w) (Ws.t0 w) (Ws.U_xt w) (Ws.U w) (Ws.t w)).
Proof.
  intros Hn. unfold cell_assemble, np_zeros2, np_zeros1.
  destruct (Z.ltb_spec (Par.n p) 0); [lia|]. simpl.
  rewrite <- (Z2Nat.id (Par.n p)) at 1 2 by lia.
  rewrite assemble_loop by lia. reflexivity.
Qed.

Lemma cell_assemble_n1 (p : Par.params F) (w : Ws.workspace F) :
  Par.n p = 1%Z -> cell_assemble p w = Raise IndexError.
Proof. intros Hn. unfold cell_assemble. rewrite Hn. reflexivity. Qed.

Lemma tridiag_lookup (n : nat) (s : F) (i j : nat) :
  (i < n)%nat -> (j < n)%nat ->
  rows (tridiag n s) !! i ≫= (fun row => row !! j) = Some (tri_entry s i j).
Proof.
  intros Hi Hj. simpl. rewrite lookup_map_seq by done. simpl.
  unfold tri_row. by rewrite lookup_map_seq.
Qed.
End Assembly.

(** ** Boundary conditions *)

Section Boundary.
Context {F : Type} `{Scalar F}.

Lemma cell_bc_spec (p : Par.params F) (w : Ws.workspace F) :
  (1 <= Par.n p)%Z -> length (Ws.B w) = Z.to_nat (Par.n p) ->
  cell_bc p w
  = Ok (Ws.mk (Ws.A w)
          (<[Z.to_nat (Par.n p - 1) := Par.s p]> (<[0%nat := Par.s p]> (Ws.B w)))
          (Ws.x w) (Ws.t0 w) (Ws.U_xt w) (Ws.U w) (Ws.t w)).
Proof.
  intros Hn HB. unfold cell_bc.
  change 0%Z with (Z.of_nat 0). rewrite setitem_in by lia. simpl.
  rewrite <- (Z2Nat.id (Par.n p - 1)) at 1 by lia.
  rewrite setitem_in by (rewrite length_insert; lia). reflexivity.
Qed.

Lemma dirichlet_lookup (n : nat) (s : F) (i : nat) :
  (i < n)%nat ->
  <[(n - 1)%nat := s]> (<[0%nat := s]> (replicate n (of_int 0))) !! i
  = Some (dirichlet_entry n s i).
Proof.
  intros Hi. unfold dirichlet_entry.
  destruct (Nat.eqb_spec i (n - 1)) as [->|Hl].
  - rewrite orb_true_r.
    by rewrite list_lookup_insert_eq
      by (rewrite length_insert, length_replicate; lia).
  - rewrite orb_false_r, list_lookup_insert_ne by done.
    destruct (Nat.eqb_spec i 0) as [->|Hz].
    + by rewrite list_lookup_insert_eq by (rewrite length_replicate; lia).
    + rewrite list_lookup_insert_ne by done. by rewrite lookup_replicate_2.
Qed.
End Boundary.

(** ** Time marching *)

Lemma for_in_counted {St} (l : list Z) (body : Z -> St -> result St) (st : St)
    (c : nat) :
  for_in l (counted body) (st, c)
  = result_map (fun st' => (st', (c + length l)%nat)) (for_in l body st).
Proof.
  revert st c. induction l as [|i l IH]; intros st c; simpl.
  - unfold result_map. simpl. by rewrite Nat.add_0_r.
  - unfold counted at 1. simpl. destruct (body i st) as [st'|e]; simpl; [|done].
    rewrite IH. by replace (S c + length l)%nat with (c + S (length l))%nat by lia.
Qed.

Section Marching.
Context {F : Type} `{Scalar F}.

Lemma cell_init_spec (p : Par.params F) (w : Ws.workspace F) :
  (1 <= Par.m p)%Z -> (0 <= Par.n p)%Z ->
  length (Ws.U_xt w) = Z.to_nat (Par.n p) ->
  cell_init p w
  = Ok (Ws.mk (Ws.A w) (Ws.B w) (Ws.x w) (Ws.t0 w) (Ws.U_xt w)
          (Matrix (Z.to_nat (Par.n p))
             (<[0%nat := Ws.U_xt w]>
                (replicate (Z.to_nat (Par.m p))
                   (replicate (Z.to_nat (Par.n p)) (of_int 0)))))
          (<[0%nat := of_int (Ws.t0 w)]>
             (replicate (Z.to_nat (Par.m p)) (of_int 0)))).
Proof.
  intros Hm Hn HU. unfold cell_init, np_zeros2, np_zeros1.
  destruct (Z.ltb_spec (Par.m p) 0); [lia|].
  destruct (Z.ltb_spec (Par.n p) 0); [lia|]. simpl.
  change 0%Z with (Z.of_nat 0).
  rewrite setrow_in by (rewrite ?length_replicate; lia). simpl.
  rewrite setitem_in by (rewrite length_replicate; lia). reflexivity.
Qed.

Lemma march_inv_init (p : Par.params F) (w w1 : Ws.workspace F) :
  (1 <= Par.m p)%Z -> (0 <= Par.n p)%Z ->
  length (Ws.U_xt w) = Z.to_nat (Par.n p) ->
  cell_init p w = Ok w1 ->
  march_inv p w1 0 w1 /\ Ws.U_xt w1 = Ws.U_xt w /\ Ws.A w1 = Ws.A w /\
  Ws.B w1 = Ws.B w /\ Ws.t w1 !! 0%nat = Some (of_int (Ws.t0 w)).
Proof.
  intros Hm Hn HU. rewrite cell_init_spec by done. intros [= <-]. simpl.
  assert (<[0%nat:=Ws.U_xt w]>
            (replicate (Z.to_nat (Par.m p))
               (replicate (Z.to_nat (Par.n p)) (of_int 0))) !! 0%nat
          = Some (Ws.U_xt w)) as Hrow
    by (apply list_lookup_insert_eq; rewrite length_replicate; lia).
  unfold march_inv. simpl.
  rewrite !length_insert, !length_replicate.
  repeat split; try done; try (intros; lia).
  apply list_lookup_insert_eq. rewrite length_replicate. lia.
Qed.

Lemma march_step_inv (p : Par.params F) (w0 w : Ws.workspace F) (i : nat) :
  well_shaped w0 -> (S i < Z.to_nat (Par.m p))%nat ->
  march_inv p w0 i w ->
  exists w', march_step p (Z.of_nat i) w = Ok w' /\ march_inv p w0 (S i) w'.
Proof.
  intros (Hc & Hr & Hb) Hi
    (HA & HB & HUc & HUr & Ht & HUl & HUi & HU0 & Ht0 & Hrec & Htrec).
  unfold march_step.
  destruct (update (Ws.A w) (Ws.B w) (Ws.U_xt w)) as [u'|e] eqn:Hu.
  2:{ rewrite update_same_shape in Hu by (rewrite ?HA, ?HB; congruence).
      discriminate. }
  assert (length u' = length (Ws.U_xt w0)) as Hlen.
  { rewrite <- Hb, <- HB. eapply update_length; [| |exact Hu];
      rewrite ?HA, ?HB; congruence. }
  simpl. destruct (Ws.U w) as [c rs] eqn:HU. simpl in *.
  replace (Z.of_nat i + 1)%Z with (Z.of_nat (S i)) by lia.
  rewrite setrow_in by (lia || congruence). simpl.
  destruct (lookup_lt_is_Some_2 (Ws.t w) i) as [a Ha]; [lia|].
  rewrite (getitem_in _ _ _ Ha). simpl.
  rewrite setitem_in by lia. simpl.
  eexists. split; [reflexivity|].
  unfold march_inv. simpl. rewrite !length_insert.
  repeat split; try done.
  - apply list_lookup_insert_eq. lia.
  - by rewrite list_lookup_insert_ne.
  - by rewrite list_lookup_insert_ne.
  - intros k Hk. destruct (decide (k = i)) as [->|Hne].
    + exists (Ws.U_xt w), u'. rewrite list_lookup_insert_ne by lia.
      rewrite list_lookup_insert_eq by lia. by rewrite <- HA, <- HB.
    + destruct (Hrec k) as (u & v & Hk1 & Hk2 & Hk3); [lia|].
      exists u, v. by rewrite !list_lookup_insert_ne by lia.
  - intros k Hk. destruct (decide (k = i)) as [->|Hne].
    + exists a. rewrite list_lookup_insert_ne by lia.
      by rewrite list_lookup_insert_eq by lia.
    + destruct (Htrec k) as (b & Hk1 & Hk2); [lia|].
      exists b. by rewrite !list_lookup_insert_ne by lia.
Qed.

(** The marching loop runs to completion from a well-shaped start. *)
Lemma cell_march_spec (p : Par.params F) (w0 : Ws.workspace F) :
  well_shaped w0 -> (1 <= Par.m p)%Z -> march_inv p w0 0 w0 ->
  exists w', cell_march p w0 = Ok w' /\
             march_inv p w0 (Z.to_nat (Par.m p - 1)) w'.
Proof.
  intros Hw Hm H0. unfold cell_march.
  destruct (for_in_range_inv (march_inv p w0) (march_step p)
              (Z.to_nat (Par.m p - 1)) w0) as (w' & Hrun & Hinv); [done| |].
  - intros i w Hi Hinv. apply march_step_inv; [done|lia|done].
  - rewrite Z2Nat.id in Hrun by lia. eauto.
Qed.
End Marching.

Lemma for_in_preserves {St X} (f : St -> X) (body : Z -> St -> result St)
    (l : list Z) (st st' : St) :
  (forall i a a', body i a = Ok a' -> f a' = f a) ->
  for_in l body st = Ok st' -> f st' = f st.
Proof.
  intros Hbody. revert st. induction l as [|i l IH]; intros st; simpl.
  - by intros [= <-].
  - intros Hrun. apply bind_ok in Hrun as (a & Ha & Hrest).
    rewrite (IH _ Hrest). eauto.
Qed.

(** ** Statements about the marching loop *)

Section MarchingClaims.
Context {F : Type} `{Scalar F}.

Lemma march_from_init (p : Par.params F) (w : Ws.workspace F) :
  well_shaped w -> (0 <= Par.n p)%Z ->
  length (Ws.U_xt w) = Z.to_nat (Par.n p) -> (1 <= Par.m p)%Z ->
  exists w1 w2,
    cell_init p w = Ok w1 /\ cell_march p w1 = Ok w2 /\
    Ws.A w1 = Ws.A w /\ Ws.B w1 = Ws.B w /\ Ws.U_xt w1 = Ws.U_xt w /\
    Ws.t w1 !! 0%nat = Some (of_int (Ws.t0 w)) /\
    march_inv p w1 (Z.to_nat (Par.m p - 1)) w2.
Proof.
  intros Hw Hn HU Hm.
  destruct (cell_init p w) as [w1|e] eqn:Hinit;
    [|by rewrite cell_init_spec in Hinit].
  destruct (march_inv_init p w w1 Hm Hn HU Hinit) as (H0 & HU1 & HA1 & HB1 & Ht).
  destruct (cell_march_spec p w1) as (w2 & Hrun & Hinv); [|done..|].
  { unfold well_shaped. by rewrite HU1, HA1, HB1. }
  exists w1, w2. do 6 (split; [done|]). exact Hinv.
Qed.

(** C1: for every step index [0 <= k < m-1] the marching loop (run after the
    cell that initialises [U] and [t]) leaves in row [k+1] of [U] the value
    [A . U_k + B] computed from row [k]: entry [i] of row [k+1] is the sum of
    the products [A[i, j] * U[k, j]], accumulated over [j] from zero, plus
    [B[i]]; and it leaves in [t[k+1]] the value [t[k] + dT]. *)
Theorem march_recurrence (p : Par.params F) (w : Ws.workspace F) (k : Z) :
  well_shaped w -> (0 <= Par.n p)%Z ->
  length (Ws.U_xt w) = Z.to_nat (Par.n p) ->
  (0 <= k < Par.m p - 1)%Z ->
  exists w1 w2 u u' a,
    cell_init p w = Ok w1 /\ cell_march p w1 = Ok w2 /\
    rows (Ws.U w2) !! Z.to_nat k = Some u /\
    rows (Ws.U w2) !! Z.to_nat (k + 1) = Some u' /\
    length u = Z.to_nat (Par.n p) /\ length u' = Z.to_nat (Par.n p) /\
    (forall i, (i < Z.to_nat (Par.n p))%nat -> exists a_i b_i,
       rows (Ws.A w) !! i = Some a_i /\ Ws.B w !! i = Some b_i /\
       u' !! i
       = Some (fadd (fold_left (fun acc q => fadd acc (fmul q.1 q.2))
                       (zip a_i u) (of_int 0)) b_i)) /\
    Ws.t w2 !! Z.to_nat k = Some a /\
    Ws.t w2 !! Z.to_nat (k + 1) = Some (fadd a (Par.dT p)).
Proof.
  intros Hw Hn HU Hk.
  destruct (march_from_init p w) as
    (w1 & w2 & Hinit & Hrun & HA & HB & _ & _ & Hinv); [done..|lia|].
  destruct Hinv as (_ & _ & _ & _ & _ & _ & _ & _ & _ & Hrec & Htrec).
  destruct (Hrec (Z.to_nat k)) as (u & u' & Hu & Hu' & Hupd); [lia|].
  destruct (Htrec (Z.to_nat k)) as (a & Ha & Ha'); [lia|].
  rewrite HA, HB in Hupd. destruct Hw as (Hc & Hr & Hb).
  destruct (update_entries _ _ _ _ Hupd ltac:(by rewrite Hr, Hb))
    as (Hlu & Hlu' & Hent).
  exists w1, w2, u, u', a.
  replace (Z.to_nat (k + 1)) with (S (Z.to_nat k)) by lia.
  do 4 (split; [done|]).
  split; [by rewrite Hlu, Hc|]. split; [by rewrite Hlu', Hb|].
  split; [|done].
  intros i Hi.
  destruct (lookup_lt_is_Some_2 (rows (Ws.A w)) i) as [a_i Hai]; [lia|].
  destruct (lookup_lt_is_Some_2 (Ws.B w) i) as [b_i Hbi]; [lia|].
  exists a_i, b_i. do 2 (split; [done|]). by apply Hent.
Qed.

(** C2: for every [m >= 1] the marching loop completes after exactly [m-1]
    executions of its body (none raises, nothing leaves the loop early), and
    the grid [U] then has [m] rows: row 0 is the initial condition and every
    later row is the update of the row before it. *)
Theorem march_terminates (p : Par.params F) (w : Ws.workspace F) :
  well_shaped w -> (0 <= Par.n p)%Z ->
  length (Ws.U_xt w) = Z.to_nat (Par.n p) -> (1 <= Par.m p)%Z ->
  exists w1 w2,
    cell_init p w = Ok w1 /\
    for_in (py_range (Par.m p - 1)) (counted (march_step p)) (w1, 0%nat)
    = Ok (w2, Z.to_nat (Par.m p - 1)) /\
    cell_march p w1 = Ok w2 /\
    length (rows (Ws.U w2)) = Z.to_nat (Par.m p) /\
    rows (Ws.U w2) !! 0%nat = Some (Ws.U_xt w) /\
    forall k, (k < Z.to_nat (Par.m p - 1))%nat -> exists u u',
      rows (Ws.U w2) !! k = Some u /\ rows (Ws.U w2) !! S k = Some u' /\
      update (Ws.A w) (Ws.B w) u = Ok u'.
Proof.
  intros Hw Hn HU Hm.
  destruct (march_from_init p w) as
    (w1 & w2 & Hinit & Hrun & HA & HB & HU1 & _ & Hinv); [done..|].
  destruct Hinv as (_ & _ & _ & Hrows & _ & _ & _ & Hrow0 & _ & Hrec & _).
  exists w1, w2. repeat split; try done.
  - rewrite for_in_counted. fold (cell_march p w1). rewrite Hrun.
    unfold result_map. simpl. by rewrite py_range_length.
  - by rewrite <- HU1.
  - rewrite <- HA, <- HB. exact Hrec.
Qed.

(** C10: after the Dirichlet cell, [B[0] = s], [B[n-1] = s] and every other
    entry is zero (boundary values [g1 = g2 = 1]); no iteration of the
    marching loop, and so no run of the loop, changes [B]. *)
Theorem dirichlet_vector_preserved (p : Par.params F) (w : Ws.workspace F) :
  (1 <= Par.n p)%Z ->
  Ws.B w = replicate (Z.to_nat (Par.n p)) (of_int 0) ->
  exists w',
    cell_bc p w = Ok w' /\
    length (Ws.B w') = Z.to_nat (Par.n p) /\
    (forall i, (i < Z.to_nat (Par.n p))%nat ->
       Ws.B w' !! i
       = Some (if ((i =? 0) || (i =? Z.to_nat (Par.n p) - 1))%nat
               then Par.s p else of_int 0)) /\
    (forall i w1 w2, march_step p i w1 = Ok w2 -> Ws.B w2 = Ws.B w1) /\
    (forall w1 w2, cell_march p w1 = Ok w2 -> Ws.B w2 = Ws.B w1).
Proof.
  intros Hn HB.
  assert (forall i w1 w2, march_step p i w1 = Ok w2 -> Ws.B w2 = Ws.B w1)
    as Hstep.
  { intros i w1 w2. unfold march_step. intros Hs.
    apply bind_ok in Hs as (u & _ & Hs). apply bind_ok in Hs as (U1 & _ & Hs).
    apply bind_ok in Hs as (a & _ & Hs). apply bind_ok in Hs as (t1 & _ & Hs).
    by injection Hs as <-. }
  eexists. split; [apply cell_bc_spec; [done|]|].
  { rewrite HB. apply length_replicate. }
  simpl. rewrite HB. repeat split.
  - by rewrite !length_insert, length_replicate.
  - intros i Hi. replace (Z.to_nat (Par.n p - 1)) with (Z.to_nat (Par.n p) - 1)%nat
      by lia.
    by apply dirichlet_lookup.
  - exact Hstep.
  - intros w1 w2. unfold cell_march. by apply for_in_preserves.
Qed.
End MarchingClaims.

(** ** Statements about matrix assembly *)

Section AssemblyClaims.
Context {F : Type} `{Scalar F}.

(** C3: for every [n >= 2] the assembly cell produces an [n x n] matrix whose
    entry [(i, j)] is [1-2s] on the diagonal, [s] next to it and zero
    elsewhere.  For [n = 1], which the specification counts as valid, the
    cell raises [IndexError] and no matrix is produced. *)
Theorem assembled_matrix_tridiagonal (p : Par.params F) (w : Ws.workspace F) :
  ((2 <= Par.n p)%Z ->
   exists w', cell_assemble p w = Ok w' /\
     ncols (Ws.A w') = Z.to_nat (Par.n p) /\
     length (rows (Ws.A w')) = Z.to_nat (Par.n p) /\
     forall i j, (i < Z.to_nat (Par.n p))%nat -> (j < Z.to_nat (Par.n p))%nat ->
       rows (Ws.A w') !! i ≫= (fun row => row !! j)
       = Some (if (i =? j)%nat then fsub (of_int 1) (fmul (of_int 2) (Par.s p))
               else if ((j =? i + 1) || (i =? j + 1))%nat then Par.s p
               else of_int 0)) /\
  (Par.n p = 1%Z -> cell_assemble p w = Raise IndexError).
Proof.
  split.
  - intros Hn. eexists. split; [by apply cell_assemble_spec|]. simpl.
    rewrite length_map, length_seq. repeat split.
    intros i j Hi Hj. by apply (tridiag_lookup (Z.to_nat (Par.n p))).
  - apply cell_assemble_n1.
Qed.

(** C4: with [n = 1] the assembly cell does not succeed: the iteration
    [i = 0] takes the branch [i == 0], writes [A[0, 0]] and then [A[0, 1]],
    which is out of range, so the cell raises [IndexError].  Run on its own,
    the Dirichlet cell assigns [s] twice to the single entry of [B]. *)
Theorem single_node_assembly_raises (p : Par.params F) (w : Ws.workspace F) :
  Par.n p = 1%Z ->
  assemble_row (Par.n p) (Par.s p) 0 (Matrix 1 [[of_int 0]]) = Raise IndexError /\
  setitem2 (Matrix 1 [[fsub (of_int 1) (fmul (of_int 2) (Par.s p))]]) 0 (0 + 1)
    (Par.s p) = Raise IndexError /\
  cell_assemble p w = Raise IndexError /\
  (Ws.B w = [of_int 0] ->
   result_map Ws.B (cell_bc p w) = Ok [Par.s p]).
Proof.
  intros Hn. rewrite Hn. repeat split.
  - unfold cell_assemble. rewrite Hn. reflexivity.
  - intros HB. unfold cell_bc. rewrite HB, Hn. reflexivity.
Qed.
End AssemblyClaims.

(** ** Determinism *)

Lemma for_in_related {St} (R : St -> St -> Prop) (body body' : Z -> St -> result St)
    (l : list Z) (st st' : St) :
  (forall i a a', R a a' -> same_outcome R (body i a) (body' i a')) ->
  R st st' ->
  same_outcome R (for_in l body st) (for_in l body' st').
Proof.
  intros Hbody. revert st st'.
  induction l as [|i l IH]; intros st st' HR; simpl; [done|].
  specialize (Hbody i st st' HR).
  destruct (body i st) as [a|e], (body' i st') as [a'|e']; simpl in *;
    try done.
  by apply IH.
Qed.

Section Determinism.
Context {F : Type} `{Scalar F}.

Lemma getitem_length (v v' : list F) (i : Z) :
  length v = length v' -> is_ok (getitem v i) = is_ok (getitem v' i) /\
  (is_ok (getitem v i) = false -> getitem v i = Raise IndexError /\
                                  getitem v' i = Raise IndexError).
Proof.
  intros Hlen. unfold getitem. rewrite <- Hlen.
  destruct (norm_index (length v) i) as [k|e] eqn:Hk; simpl.
  - apply norm_index_ok in Hk.
    destruct (lookup_lt_is_Some_2 v k Hk) as [a ->].
    destruct (lookup_lt_is_Some_2 v' k) as [a' ->]; [lia|]. done.
  - split; [done|]. intros _. unfold norm_index in Hk.
    repeat match type of Hk with
           | (if ?c then _ else _) = _ => destruct c
           end; by inversion Hk.
Qed.

Lemma march_step_related (p p' : Par.params F) (i : Z) (w w' : Ws.workspace F) :
  march_related w w' ->
  same_outcome march_related (march_step p i w) (march_step p' i w').
Proof.
  intros (HA & HB & HUxt & HU & Ht). unfold march_step.
  rewrite <- HA, <- HB, <- HUxt, <- HU.
  destruct (update (Ws.A w) (Ws.B w) (Ws.U_xt w)) as [u|e]; simpl; [|done].
  destruct (setrow (Ws.U w) (i + 1) u) as [U1|e]; simpl; [|done].
  destruct (getitem_length (Ws.t w) (Ws.t w') i Ht) as (Hok & Herr).
  destruct (getitem (Ws.t w) i) as [a|e] eqn:Ha; simpl in *.
  - destruct (getitem (Ws.t w') i) as [a'|e']; [|done]. simpl.
    unfold setitem. rewrite <- Ht.
    destruct (norm_index (length (Ws.t w)) (i + 1)) as [k|e]; simpl; [|done].
    unfold march_related. simpl. by rewrite !length_insert.
  - destruct Herr as [[= ->] ->]; done.
Qed.

Lemma cell_init_related (p p' : Par.params F) (w w' : Ws.workspace F) :
  Ws.A w = Ws.A w' -> Ws.B w = Ws.B w' -> Ws.U_xt w = Ws.U_xt w' ->
  Par.m p = Par.m p' -> Par.n p = Par.n p' ->
  same_outcome march_related (cell_init p w) (cell_init p' w').
Proof.
  intros HA HB HUxt Hm Hn. unfold cell_init.
  rewrite <- HUxt, <- Hm, <- Hn.
  destruct (np_zeros2 (Par.m p) (Par.n p)) as [U0|e]; simpl; [|done].
  destruct (setrow U0 0 (Ws.U_xt w)) as [U1|e]; simpl; [|done].
  destruct (np_zeros1 (Par.m p)) as [t_0|e]; simpl; [|done].
  unfold setitem.
  destruct (norm_index (length t_0) 0) as [k|e]; simpl; [|done].
  unfold march_related. simpl. by rewrite !length_insert.
Qed.

(** C9: the assembly cell followed by the Dirichlet cell yields an [A] and a
    [B] (or raises an exception) determined by [n] and [s] alone, whatever
    the workspace held before; the cell initialising [U] followed by the
    marching loop yields a grid [U] (or raises an exception) determined by
    [A], [B], the initial [U_xt] and the counts [m], [n] alone; and the
    marching loop on its own yields a grid determined by [A], [B], [U_xt],
    the grid it starts from and [m], whatever [dT] and the time stamps
    are. *)
Theorem assembly_and_march_deterministic
    (p p' : Par.params F) (w w' : Ws.workspace F) :
  (Par.n p = Par.n p' -> Par.s p = Par.s p' ->
   result_map (fun v => (Ws.A v, Ws.B v)) (v <- cell_assemble p w ;; cell_bc p v)
   = result_map (fun v => (Ws.A v, Ws.B v))
       (v <- cell_assemble p' w' ;; cell_bc p' v)) /\
  (Ws.A w = Ws.A w' -> Ws.B w = Ws.B w' -> Ws.U_xt w = Ws.U_xt w' ->
   Par.m p = Par.m p' -> Par.n p = Par.n p' ->
   result_map Ws.U (v <- cell_init p w ;; cell_march p v)
   = result_map Ws.U (v <- cell_init p' w' ;; cell_march p' v)) /\
  (march_related w w' -> Par.m p = Par.m p' ->
   result_map Ws.U (cell_march p w) = result_map Ws.U (cell_march p' w')).
Proof.
  assert (forall v v', march_related v v' -> Par.m p = Par.m p' ->
    result_map Ws.U (cell_march p v) = result_map Ws.U (cell_march p' v'))
    as Hloop.
  { intros v v' Hrel Hm. unfold cell_march. rewrite <- Hm.
    pose proof (for_in_related march_related (march_step p) (march_step p')
                  (py_range (Par.m p - 1)) v v'
                  (fun i a a' => march_step_related p p' i a a') Hrel) as Hrun.
    destruct (for_in _ (march_step p) v) as [v1|e1],
             (for_in _ (march_step p') v') as [v2|e2];
      simpl in *; try done; [|by subst].
    unfold result_map. simpl. by destruct Hrun as (_ & _ & _ & -> & _). }
  split; [|split; [|apply Hloop]].
  - intros Hn Hs. unfold cell_assemble, cell_bc. rewrite <- Hn, <- Hs.
    destruct (np_zeros2 (Par.n p) (Par.n p)) as [A0|e]; simpl; [|done].
    destruct (for_in _ _ A0) as [A1|e]; simpl; [|done].
    destruct (np_zeros1 (Par.n p)) as [B0|e]; simpl; [|done].
    destruct (setitem B0 0 (Par.s p)) as [B1|e]; simpl; [|done].
    by destruct (setitem B1 (Par.n p - 1) (Par.s p)) as [B2|e].
  - intros HA HB HUxt Hm Hn.
    pose proof (cell_init_related p p' w w' HA HB HUxt Hm Hn) as Hinit.
    destruct (cell_init p w) as [v|e], (cell_init p' w') as [v'|e'];
      simpl in *; try done; [|by subst].
    by apply Hloop.
Qed.
End Determinism.

(** ** The degenerate case [s = 0], in binary64 *)

Section Binary64.

Lemma is_finite_class (y : float) : PrimFloat.is_finite y = true -> ffinite y.
Proof.
  unfold PrimFloat.is_finite, is_nan, is_infinity, ffinite.
  rewrite !FloatAxioms.eqb_spec, abs_spec.
  destruct (Prim2SF y) as [b|b| |b m e]; try done.
  change (Prim2SF infinity) with (S754_infinity false). simpl. by destruct b.
Qed.

Lemma is_zero_class (z : float) : PrimFloat.eqb z 0 = true -> fzero z.
Proof.
  rewrite FloatAxioms.eqb_spec. change (Prim2SF 0) with (S754_zero false).
  unfold fzero. destruct (Prim2SF z) as [b|b| |b m e]; simpl; try done.
  - eauto.
  - by destruct b.
  - by destruct b.
Qed.

Lemma fzero_zero : fzero 0%float.
Proof. by exists false. Qed.

Lemma settled_zero : settled 0%float.
Proof. reflexivity. Qed.

Lemma digits2_pos_iter (m : positive) (k : positive) :
  Z.pos (digits2_pos (Pos.iter xO m k)) = (Z.pos (digits2_pos m) + Z.pos k)%Z.
Proof.
  revert m. induction k using Pos.peano_ind; intros m.
  - simpl. lia.
  - rewrite Pos.iter_succ. simpl. rewrite Pos2Z.inj_succ, IHk. lia.
Qed.

Lemma shr_fexp_canonical (m : positive) (e : Z) :
  fexp prec emax (Z.pos (digits2_pos m) + e) = e ->
  shr_fexp prec emax (Z.pos m) e loc_Exact
  = ({| shr_m := Z.pos m; shr_r := false; shr_s := false |}, e).
Proof.
  intros Hc. unfold shr_fexp, Zdigits2. rewrite Hc, Z.sub_diag. reflexivity.
Qed.

Lemma shr_fexp_shifted (m : positive) (e : Z) :
  fexp prec emax (Z.pos (digits2_pos m) + e) = e ->
  shr_fexp prec emax (Z.pos (Pos.iter xO m 52)) (-52 + e) loc_Exact
  = ({| shr_m := Z.pos m; shr_r := false; shr_s := false |}, e).
Proof.
  intros Hc. unfold shr_fexp, Zdigits2. rewrite digits2_pos_iter.
  replace (Z.pos (digits2_pos m) + 52 + (-52 + e))%Z
    with (Z.pos (digits2_pos m) + e)%Z by lia.
  rewrite Hc. replace (e - (-52 + e))%Z with 52%Z by lia.
  unfold shr. replace (-52 + e + 52)%Z with e by lia. reflexivity.
Qed.

(** The product of 1 and a binary64 number is that number: the mantissa is
    shifted by 52 bits and shifted back, nothing is rounded off. *)
Lemma mul_one_finite (b : bool) (m : positive) (e : Z) :
  bounded prec emax m e = true ->
  SFmul prec emax (S754_finite false 4503599627370496 (-52)) (S754_finite b m e)
  = S754_finite b m e.
Proof.
  intros Hb. unfold bounded, canonical_mantissa in Hb.
  apply andb_prop in Hb as [Hc He]. apply Z.eqb_eq in Hc.
  unfold SFmul, binary_round_aux.
  change (xorb false b) with b.
  change (Pos.mul 4503599627370496 m) with (Pos.iter xO m 52).
  rewrite (shr_fexp_shifted m e Hc).
  cbn [shr_m loc_of_shr_record round_nearest_even].
  rewrite (shr_fexp_canonical m e Hc). cbn [shr_m]. by rewrite He.
Qed.

Lemma add_zero_r (a z : float) : settled a -> fzero z -> (a + z)%float = a.
Proof.
  unfold settled. intros Ha [b Hz]. apply Prim2SF_inj.
  rewrite add_spec, Hz. unfold SF64add, SFadd.
  destruct (Prim2SF a) as [c|c| |c m e]; try done.
  subst c. by destruct b.
Qed.

Lemma mul_zero_l (z y : float) : fzero z -> ffinite y -> fzero (z * y)%float.
Proof.
  unfold ffinite, fzero. intros [b Hz] Hy. rewrite mul_spec, Hz.
  unfold SF64mul, SFmul. destruct (Prim2SF y) as [c|c| |c m e]; try done; eauto.
Qed.

Lemma mul_one_l (y : float) : ffinite y -> (1 * y)%float = y.
Proof.
  unfold ffinite. intros Hy. apply Prim2SF_inj. rewrite mul_spec.
  change (Prim2SF 1) with (S754_finite false 4503599627370496 (-52)).
  pose proof (Prim2SF_valid y) as Hv.
  destruct (Prim2SF y) as [c|c| |c m e]; try done.
  by apply mul_one_finite.
Qed.

Lemma unsigned_zero_settled (y : float) : ffinite y -> settled (unsigned_zero y).
Proof.
  unfold ffinite, settled, unsigned_zero. rewrite FloatAxioms.eqb_spec.
  change (Prim2SF 0) with (S754_zero false).
  destruct (Prim2SF y) as [c|c| |c m e] eqn:Hy; try done; simpl.
  destruct c; simpl; by rewrite Hy.
Qed.

Lemma add_zero_l (y : float) : ffinite y -> (0 + y)%float = unsigned_zero y.
Proof.
  unfold ffinite, unsigned_zero. intros Hy. rewrite FloatAxioms.eqb_spec.
  change (Prim2SF 0) with (S754_zero false).
  destruct (Prim2SF y) as [c|c| |c m e] eqn:Hy'; try done; simpl.
  - apply Prim2SF_inj. rewrite add_spec, Hy'.
    change (Prim2SF 0) with (S754_zero false). by destruct c.
  - replace (SFeqb (S754_finite c m e) (S754_zero false)) with false
      by (by destruct c).
    apply Prim2SF_inj. rewrite add_spec, Hy'. reflexivity.
Qed.

Lemma diag_of_zero (s : float) : fzero s -> (1 - 2 * s)%float = 1%float.
Proof.
  intros [b Hs]. apply Prim2SF_inj. rewrite sub_spec, mul_spec, Hs.
  reflexivity.
Qed.

Lemma unsigned_zero_eqb (y : float) :
  ffinite y -> PrimFloat.eqb (unsigned_zero y) y = true.
Proof.
  unfold ffinite, unsigned_zero. intros Hy.
  destruct (PrimFloat.eqb y 0) eqn:Hz.
  - rewrite FloatAxioms.eqb_spec in *.
    change (Prim2SF 0) with (S754_zero false) in *.
    destruct (Prim2SF y) as [c|c| |c m e]; try done. by destruct c.
  - rewrite FloatAxioms.eqb_spec.
    destruct (Prim2SF y) as [c|c| |c m e]; try done.
    unfold SFeqb, SFcompare. rewrite Z.compare_refl, Pos.compare_cont_refl.
    by destruct c.
Qed.

(** *** The rows of [A] when [s] is a zero *)

Lemma tri_entry_diag (s : float) (i : nat) :
  fzero s -> tri_entry s i i = 1%float.
Proof.
  intros Hs. unfold tri_entry. rewrite Nat.eqb_refl. by apply diag_of_zero.
Qed.

Lemma tri_entry_off (s : float) (i j : nat) :
  fzero s -> i <> j -> fzero (tri_entry s i j).
Proof.
  intros Hs Hij. unfold tri_entry.
  destruct (Nat.eqb_spec i j) as [|_]; [done|].
  destruct ((j =? i + 1) || (i =? j + 1))%nat; [done|apply fzero_zero].
Qed.

Lemma tridiag_zero (n : nat) : tridiag n 0%float = identity n.
Proof.
  unfold tridiag, identity, tri_row. f_equal.
  apply map_ext. intros i. apply map_ext. intros j. unfold tri_entry.
  destruct (i =? j)%nat; [reflexivity|].
  by destruct ((j =? i + 1) || (i =? j + 1))%nat.
Qed.

(** Past the diagonal every product is a zero and leaves the sum as it
    is. *)
Lemma fold_row_tail (s : float) (i : nat) (u : list float) :
  fzero s -> Forall ffinite u ->
  forall (a : nat) (acc : float), (i < a)%nat -> settled acc ->
    fold_left (fun acc q => fadd acc (fmul q.1 q.2))
      (zip (map (tri_entry s i) (seq a (length u))) u) acc
    = acc.
Proof.
  intros Hs Hu. induction Hu as [|y u Hy Hu IH]; intros a acc Ha Hacc; [done|].
  cbn [length seq map zip zip_with fold_left fst snd fadd fmul float_scalar].
  rewrite add_zero_r; [apply IH; [lia|done]|done|].
  apply mul_zero_l; [|done]. apply tri_entry_off; [done|lia].
Qed.

(** Up to the diagonal the sum stays [+0.0]; the diagonal adds [1 * y]. *)
Lemma fold_row (s : float) (i : nat) (u : list float) :
  fzero s -> Forall ffinite u ->
  forall (a : nat) (y : float), (a <= i)%nat -> u !! (i - a)%nat = Some y ->
    fold_left (fun acc q => fadd acc (fmul q.1 q.2))
      (zip (map (tri_entry s i) (seq a (length u))) u) 0%float
    = unsigned_zero y.
Proof.
  intros Hs Hu. induction Hu as [|z u Hz Hu IH]; intros a y Ha Hy; [done|].
  cbn [length seq map zip zip_with fold_left fst snd fadd fmul float_scalar].
  destruct (Nat.eq_dec a i) as [->|Hne].
  - rewrite Nat.sub_diag in Hy. injection Hy as ->.
    rewrite tri_entry_diag, mul_one_l, add_zero_l by done.
    apply fold_row_tail; [done..|lia|by apply unsigned_zero_settled].
  - rewrite add_zero_r;
      [|apply settled_zero|apply mul_zero_l; [apply tri_entry_off; [done|lia]|done]].
    apply IH; [lia|].
    by replace (i - a)%nat with (S (i - S a)) in Hy by lia.
Qed.

Lemma dirichlet_entry_zero (n : nat) (s : float) (i : nat) :
  fzero s -> fzero (dirichlet_entry n s i).
Proof.
  intros Hs. unfold dirichlet_entry.
  destruct ((i =? 0) || (i =? n - 1))%nat; [done|apply fzero_zero].
Qed.

Lemma update_frozen (n : nat) (s : float) (u : list float) :
  fzero s -> length u = n -> Forall ffinite u ->
  update (tridiag n s)
    (<[(n - 1)%nat := s]> (<[0%nat := s]> (replicate n (of_int 0)))) u
  = Ok (map unsigned_zero u).
Proof.
  intros Hs Hlen Hu.
  rewrite update_same_shape
    by (simpl; rewrite ?length_map, ?length_seq, ?length_insert,
          ?length_replicate; done).
  f_equal. apply list_eq. intros i.
  rewrite lookup_zip_with, !lookup_map. cbn [rows tridiag].
  destruct (u !! i) as [y|] eqn:Hy.
  - pose proof (lookup_lt_Some _ _ _ Hy) as Hi.
    rewrite lookup_map_seq by lia. cbn [option_map mbind option_bind].
    rewrite dirichlet_lookup by lia. cbn [mbind option_bind].
    unfold dot, tri_row. rewrite <- Hlen.
    change (of_int 0) with 0%float. cbn [fmap option_fmap option_map].
    rewrite (fold_row s i u Hs Hu 0 y) by (rewrite ?Nat.sub_0_r; done || lia).
    cbn [mbind option_bind fadd float_scalar]. f_equal.
    apply add_zero_r; [|by apply dirichlet_entry_zero].
    apply unsigned_zero_settled. exact (Forall_lookup_1 _ _ _ _ Hu Hy).
  - apply lookup_ge_None in Hy. rewrite lookup_map_seq_ge by lia. done.
Qed.

Lemma unsigned_zero_finite (y : float) :
  PrimFloat.is_finite y = true -> PrimFloat.is_finite (unsigned_zero y) = true.
Proof.
  intros Hy. unfold unsigned_zero. by destruct (PrimFloat.eqb y 0).
Qed.

Lemma unsigned_zero_nonzero (y : float) :
  PrimFloat.eqb y 0 = false -> unsigned_zero y = y.
Proof. intros Hy. unfold unsigned_zero. by rewrite Hy. Qed.

(** C7 (as the code behaves, in binary64): with the Dirichlet cell and
    [s == 0] (and [n >= 2], so that assembly succeeds), [A] is the identity
    matrix and [B] the zero vector, entry by entry under the equality of
    floats, and bit for bit when [s] is [+0.0].  For every state vector [U_k]
    whose entries are all finite, the update [A . U_k + B] returns a vector
    of finite entries that equals [U_k] entry by entry under the equality of
    floats, every nonzero entry bit for bit; when [s] is [+0.0] it is [U_k]
    with each [-0.0] turned into [+0.0].  So does every iteration of the
    marching loop. *)
Theorem zero_s_identity_map (p : Par.params float) (w : Ws.workspace float) :
  (2 <= Par.n p)%Z -> is_zero (Par.s p) = true ->
  exists w1 w2,
    cell_assemble p w = Ok w1 /\ cell_bc p w1 = Ok w2 /\
    ncols (Ws.A w2) = Z.to_nat (Par.n p) /\
    length (rows (Ws.A w2)) = Z.to_nat (Par.n p) /\
    length (Ws.B w2) = Z.to_nat (Par.n p) /\
    (forall i j, (i < Z.to_nat (Par.n p))%nat -> (j < Z.to_nat (Par.n p))%nat ->
       exists a, rows (Ws.A w2) !! i ≫= (fun row => row !! j) = Some a /\
         PrimFloat.eqb a (if (i =? j)%nat then 1%float else 0%float) = true) /\
    (forall i, (i < Z.to_nat (Par.n p))%nat ->
       exists b, Ws.B w2 !! i = Some b /\ PrimFloat.eqb b 0%float = true) /\
    (Par.s p = 0%float ->
       Ws.A w2 = identity (Z.to_nat (Par.n p)) /\
       Ws.B w2 = replicate (Z.to_nat (Par.n p)) 0%float) /\
    (forall U_k, length U_k = Z.to_nat (Par.n p) ->
       Forall (fun y => PrimFloat.is_finite y = true) U_k ->
       exists U_n,
         update (Ws.A w2) (Ws.B w2) U_k = Ok U_n /\
         Forall (fun y => PrimFloat.is_finite y = true) U_n /\
         Forall2 (fun y' y => PrimFloat.eqb y' y = true /\
                              (PrimFloat.eqb y 0%float = false -> y' = y))
           U_n U_k /\
         (Par.s p = 0%float -> U_n = map unsigned_zero U_k)) /\
    (forall i v v', Ws.A v = Ws.A w2 -> Ws.B v = Ws.B w2 ->
       length (Ws.U_xt v) = Z.to_nat (Par.n p) ->
       Forall (fun y => PrimFloat.is_finite y = true) (Ws.U_xt v) ->
       march_step p i v = Ok v' ->
       Forall (fun y => PrimFloat.is_finite y = true) (Ws.U_xt v') /\
       Forall2 (fun y' y => PrimFloat.eqb y' y = true /\
                            (PrimFloat.eqb y 0%float = false -> y' = y))
         (Ws.U_xt v') (Ws.U_xt v) /\
       (Par.s p = 0%float -> Ws.U_xt v' = map unsigned_zero (Ws.U_xt v))).
Proof.
  intros Hn Hs. pose proof (is_zero_class _ Hs) as Hz.
  set (n := Z.to_nat (Par.n p)).
  assert (forall U_k : list float, length U_k = n ->
    Forall (fun y => PrimFloat.is_finite y = true) U_k ->
    update (tridiag n (Par.s p))
      (<[(n - 1)%nat := Par.s p]> (<[0%nat := Par.s p]> (replicate n (of_int 0))))
      U_k = Ok (map unsigned_zero U_k)) as Hupd.
  { intros U_k Hlen Hfin. apply update_frozen; [done..|].
    eapply Forall_impl; [exact Hfin|]. apply is_finite_class. }
  assert (forall U_k : list float,
    Forall (fun y => PrimFloat.is_finite y = true) U_k ->
    Forall (fun y => PrimFloat.is_finite y = true) (map unsigned_zero U_k) /\
    Forall2 (fun y' y => PrimFloat.eqb y' y = true /\
                         (PrimFloat.eqb y 0%float = false -> y' = y))
      (map unsigned_zero U_k) U_k) as Hsame.
  { intros U_k Hfin. split.
    - apply Forall_fmap. eapply Forall_impl; [exact Hfin|].
      apply unsigned_zero_finite.
    - apply Forall2_fmap_l, Forall_Forall2_diag.
      eapply Forall_impl; [exact Hfin|].
      intros y Hy. split; [by apply unsigned_zero_eqb, is_finite_class|].
      apply unsigned_zero_nonzero. }
  eexists _, _. split; [by apply cell_assemble_spec|].
  split; [apply cell_bc_spec; [lia|apply length_replicate]|].
  cbn [Ws.A Ws.B]. fold n.
  replace (Z.to_nat (Par.n p - 1)) with (n - 1)%nat by lia.
  split; [done|].
  split; [by cbn; rewrite length_map, length_seq|].
  split; [by rewrite !length_insert, length_replicate|].
  split; [|split; [|split; [|split]]].
  - intros i j Hi Hj. eexists. split; [by apply tridiag_lookup|].
    destruct (Nat.eqb_spec i j) as [->|Hij].
    + by rewrite tri_entry_diag.
    + unfold tri_entry. destruct (Nat.eqb_spec i j) as [|_]; [done|].
      by destruct ((j =? i + 1) || (i =? j + 1))%nat.
  - intros i Hi. eexists. split; [by apply dirichlet_lookup|].
    unfold dirichlet_entry. by destruct ((i =? 0) || (i =? n - 1))%nat.
  - intros ->. split; [apply tridiag_zero|]. by rewrite !insert_replicate.
  - intros U_k Hlen Hfin. exists (map unsigned_zero U_k).
    split; [by apply Hupd|]. destruct (Hsame U_k Hfin) as [? ?]. done.
  - intros i v v' HA HB Hlen Hfin. unfold march_step.
    rewrite HA, HB, (Hupd _ Hlen Hfin). cbn [bind]. intros Hstep.
    apply bind_ok in Hstep as (U1 & _ & Hstep).
    apply bind_ok in Hstep as (a & _ & Hstep).
    apply bind_ok in Hstep as (t1 & _ & Hstep).
    injection Hstep as <-. cbn [Ws.U_xt].
    destruct (Hsame _ Hfin) as [? ?]. done.
Qed.
End Binary64.

(** C7 (as stated) fails in binary64: with [n = 2] and [s = 0] the cells
    build the identity matrix and the zero vector, and the update maps the
    state [[inf, 1]] to [[inf, nan]]: the zero entry of [A] times the
    infinite entry of the state is [nan]. *)
Lemma zero_s_identity_map_fails_on_infinite_state :
  cell_params config_frozen = Ok params_frozen /\
  exists w1 w2,
    cell_assemble params_frozen empty_ws = Ok w1 /\
    cell_bc params_frozen w1 = Ok w2 /\
    Ws.A w2 = identity 2 /\ Ws.B w2 = [0; 0]%float /\
    update (Ws.A w2) (Ws.B w2) [infinity; 1]%float
    = Ok [infinity; nan]%float /\
    update (Ws.A w2) (Ws.B w2) [infinity; 1]%float
    <> Ok [infinity; 1]%float.
Proof.
  split; [vm_compute; reflexivity|].
  eexists _, _. split; [vm_compute; reflexivity|].
  split; [vm_compute; reflexivity|].
  cbn [Ws.A Ws.B]. split; [reflexivity|]. split; [reflexivity|].
  split; [vm_compute; reflexivity|].
  intros Heq.
  apply (f_equal (fun r => match r with
                           | Ok [_; y] => PrimFloat.eqb y 1%float
                           | _ => false
                           end)) in Heq.
  vm_compute in Heq. discriminate.
Qed.

(** ** Parameters *)

Lemma notebook_params_R :
  cell_params (F := R) notebook
  = Ok (Par.mk 0 1 1 39 (1 / 40)%R 600 12000 (12000 / 600)%R
          (powerRZ 10 (-5)) (32 / 100)%R).
Proof.
  unfold cell_params, truediv, floatpow, floatdiv, notebook. simpl.
  change (IZR (1 - 0)) with 1%R. change (IZR (39 + 1)) with 40%R.
  change (2 <? 0)%Z with false. rewrite andb_false_r. cbn [bind].
  unfold R_is_zero. destruct (Req_dec_T _ 0%R) as [Hz|_]; [lra|].
  simpl. do 2 f_equal. field.
Qed.

(** C5 (as the code computes it): in real arithmetic the stepping number of
    the notebook's configuration is 0.32; in binary64, with [dX**2], [/] and
    [*] each rounded once, it is 0x1.47ae147ae147ap-2, printed
    0.31999999999999995, the number just below the binary64 number nearest
    to 0.32. *)
Theorem notebook_stepping_number :
  result_map Par.s (cell_params (F := R) notebook) = Ok (32 / 100)%R /\
  result_map Par.s (cell_params (F := float) notebook)
  = Ok 0x1.47ae147ae147ap-2%float /\
  PrimFloat.next_up 0x1.47ae147ae147ap-2%float = float_0_32.
Proof.
  split; [by rewrite notebook_params_R|].
  split; vm_compute; reflexivity.
Qed.

(** C5 (as stated) fails in binary64: the computed [s] is not the float
    0.32. *)
Lemma notebook_stepping_number_not_0_32 :
  result_map Par.s (cell_params (F := float) notebook) <> Ok float_0_32.
Proof.
  intros Heq.
  apply (f_equal (fun r => match r with
                           | Ok a => PrimFloat.eqb a float_0_32
                           | Raise _ => false
                           end)) in Heq.
  vm_compute in Heq. discriminate.
Qed.

Section ConfigurationErrors.
Context {F : Type} `{Scalar F}.

(** C8 (as the code behaves): the notebook validates nothing.  The parameter
    cell returns exactly when no division is by zero ([n <> -1], [m <> 0],
    [dX**2 <> 0]) and none of [L/(n+1)], [T/m] and [dX**2] leaves the float
    range; otherwise it raises [ZeroDivisionError] or [OverflowError], each
    for one of its own causes.  With [n < -1] the assembly cell raises
    [ValueError] when it allocates [A]; with [n = 0] assembly succeeds and
    the Dirichlet cell raises [IndexError]. *)
Theorem configuration_rejection (c : Cfg.config F) :
  (forall e, cell_params c = Raise e ->
     e = ZeroDivisionError /\
     (Cfg.n c = (-1)%Z \/ Cfg.m c = 0%Z \/
      is_zero (fpow (of_quot (Cfg.xL c - Cfg.x0 c) (Cfg.n c + 1)) 2) = true) \/
     e = OverflowError /\
     (is_inf (of_quot (Cfg.xL c - Cfg.x0 c) (Cfg.n c + 1)) = true \/
      is_inf (of_quot (Cfg.T c) (Cfg.m c)) = true \/
      is_inf (fpow (of_quot (Cfg.xL c - Cfg.x0 c) (Cfg.n c + 1)) 2) = true)) /\
  (is_ok (cell_params c) = true <->
     Cfg.n c <> (-1)%Z /\ Cfg.m c <> 0%Z /\
     is_inf (of_quot (Cfg.xL c - Cfg.x0 c) (Cfg.n c + 1)) = false /\
     is_inf (of_quot (Cfg.T c) (Cfg.m c)) = false /\
     is_inf (fpow (of_quot (Cfg.xL c - Cfg.x0 c) (Cfg.n c + 1)) 2) = false /\
     is_zero (fpow (of_quot (Cfg.xL c - Cfg.x0 c) (Cfg.n c + 1)) 2) = false) /\
  (forall p w, cell_params c = Ok p -> (Cfg.n c < 0)%Z ->
     cell_assemble p w = Raise ValueError) /\
  (forall p w, cell_params c = Ok p -> Cfg.n c = 0%Z ->
     exists w1, cell_assemble p w = Ok w1 /\ cell_bc p w1 = Raise IndexError).
Proof.
  unfold cell_params, truediv, floatpow, floatdiv.
  set (dX := of_quot (Cfg.xL c - Cfg.x0 c) (Cfg.n c + 1)).
  set (dT := of_quot (Cfg.T c) (Cfg.m c)).
  destruct (Z.eqb_spec (Cfg.n c + 1) 0) as [Hn|Hn]; cbn [bind].
  { params_raise; [left; split; [done|left; lia]|lia]. }
  destruct (is_inf dX) eqn:HdX; cbn [bind].
  { params_raise; [right; split; [done|by left]|congruence]. }
  destruct (Z.eqb_spec (Cfg.m c) 0) as [Hm|Hm]; cbn [bind].
  { params_raise; [left; split; [done|right; by left]|done]. }
  destruct (is_inf dT) eqn:HdT; cbn [bind].
  { params_raise; [right; split; [done|right; by left]|congruence]. }
  change (2 <? 0)%Z with false. rewrite andb_false_r. cbn zeta.
  rewrite HdX. cbn [negb]. rewrite andb_true_r.
  destruct (is_inf (fpow dX 2)) eqn:Hov; cbn [bind].
  { params_raise; [right; split; [done|right; by right]|congruence]. }
  destruct (is_zero (fpow dX 2)) eqn:Hz; cbn [bind].
  { params_raise; [left; split; [done|right; by right]|congruence]. }
  cbn [is_ok]. split; [intros e; discriminate|].
  split; [split; [intros _; repeat split; (lia || done)|done]|]. split.
  - intros p w [= <-] Hneg. unfold cell_assemble, np_zeros2. simpl.
    by destruct (Z.ltb_spec (Cfg.n c) 0); [|lia].
  - intros p w [= <-] Hzero. unfold cell_assemble, cell_bc. simpl.
    rewrite Hzero. simpl. eexists. split; reflexivity.
Qed.
End ConfigurationErrors.

(** C8 (as stated) fails: a configuration with [n = 0 < 1] passes the
    parameter cell and the whole assembly cell; a configuration with a
    negative time step ([dT = -20]) passes the parameter, assembly,
    Dirichlet, initialisation and marching cells (run here on a state of
    ones). *)
Lemma malformed_configuration_not_rejected :
  (Cfg.n config_no_node < 1)%Z /\
  is_ok (cell_params config_no_node) = true /\
  is_ok (p <- cell_params config_no_node ;; cell_assemble p empty_ws) = true /\
  result_map Par.dT (cell_params config_negative_time) = Ok (-20)%float /\
  is_ok (p <- cell_params config_negative_time ;;
         w1 <- cell_assemble p empty_ws ;;
         w2 <- cell_bc p w1 ;;
         w3 <- cell_init p
                 (Ws.mk (Ws.A w2) (Ws.B w2) [] 0
                    (replicate 39 1%float) (Ws.U w2) (Ws.t w2)) ;;
         cell_march p w3) = true.
Proof.
  split; [simpl; lia|].
  repeat split; vm_compute; reflexivity.
Qed.

(** ** The statements at concrete inputs *)

Lemma march_recurrence_witness :
  exists w1 w2 u u' a,
    cell_init params_small ws_small = Ok w1 /\
    cell_march params_small w1 = Ok w2 /\
    rows (Ws.U w2) !! Z.to_nat 1 = Some u /\
    rows (Ws.U w2) !! Z.to_nat (1 + 1) = Some u' /\
    length u = Z.to_nat 3 /\ length u' = Z.to_nat 3 /\
    (forall i, (i < Z.to_nat 3)%nat -> exists a_i b_i,
       rows (Ws.A ws_small) !! i = Some a_i /\ Ws.B ws_small !! i = Some b_i /\
       u' !! i
       = Some (fadd (fold_left (fun acc q => fadd acc (fmul q.1 q.2))
                       (zip a_i u) (of_int 0)) b_i)) /\
    Ws.t w2 !! Z.to_nat 1 = Some a /\
    Ws.t w2 !! Z.to_nat (1 + 1) = Some (fadd a (Par.dT params_small)).
Proof.
  exact (march_recurrence params_small ws_small 1
           ltac:(repeat split; reflexivity) ltac:(simpl; lia) eq_refl
           ltac:(simpl; lia)).
Defined.

Lemma march_terminates_witness :
  exists w1 w2,
    cell_init params_small ws_small = Ok w1 /\
    for_in (py_range (Par.m params_small - 1))
      (counted (march_step params_small)) (w1, 0%nat)
    = Ok (w2, Z.to_nat (Par.m params_small - 1)) /\
    cell_march params_small w1 = Ok w2 /\
    length (rows (Ws.U w2)) = Z.to_nat (Par.m params_small) /\
    rows (Ws.U w2) !! 0%nat = Some (Ws.U_xt ws_small) /\
    forall k, (k < Z.to_nat (Par.m params_small - 1))%nat -> exists u u',
      rows (Ws.U w2) !! k = Some u /\ rows (Ws.U w2) !! S k = Some u' /\
      update (Ws.A ws_small) (Ws.B ws_small) u = Ok u'.
Proof.
  apply (march_terminates params_small ws_small).
  - repeat split; reflexivity.
  - simpl; lia.
  - reflexivity.
  - simpl; lia.
Defined.

Lemma dirichlet_vector_preserved_witness :
  exists w',
    cell_bc params_small
      (Ws.mk (Matrix 0 []) [0; 0; 0]%float [] 0 [] (Matrix 0 []) []) = Ok w' /\
    length (Ws.B w') = 3%nat /\
    (forall i, (i < 3)%nat ->
       Ws.B w' !! i
       = Some (if ((i =? 0) || (i =? 3 - 1))%nat then 0.25%float else 0%float)) /\
    (forall i w1 w2, march_step params_small i w1 = Ok w2 -> Ws.B w2 = Ws.B w1) /\
    (forall w1 w2, cell_march params_small w1 = Ok w2 -> Ws.B w2 = Ws.B w1).
Proof.
  exact (dirichlet_vector_preserved params_small
           (Ws.mk (Matrix 0 []) [0; 0; 0]%float [] 0 [] (Matrix 0 []) [])
           ltac:(simpl; lia) eq_refl).
Defined.

Lemma assembled_matrix_tridiagonal_witness :
  (exists w', cell_assemble params_small empty_ws = Ok w' /\
     ncols (Ws.A w') = 3%nat /\ length (rows (Ws.A w')) = 3%nat /\
     forall i j, (i < 3)%nat -> (j < 3)%nat ->
       rows (Ws.A w') !! i ≫= (fun row => row !! j)
       = Some (if (i =? j)%nat then fsub (of_int 1) (fmul (of_int 2) 0.25%float)
               else if ((j =? i + 1) || (i =? j + 1))%nat then 0.25%float
               else of_int 0)) /\
  cell_assemble params_single empty_ws = Raise IndexError.
Proof.
  split.
  - exact (proj1 (assembled_matrix_tridiagonal params_small empty_ws)
             ltac:(simpl; lia)).
  - exact (proj2 (assembled_matrix_tridiagonal params_single empty_ws) eq_refl).
Defined.

Lemma single_node_assembly_raises_witness :
  assemble_row 1 0.25%float 0 (Matrix 1 [[0%float]]) = Raise IndexError /\
  setitem2 (Matrix 1 [[fsub (of_int 1) (fmul (of_int 2) 0.25%float)]]) 0 (0 + 1)
    0.25%float = Raise IndexError /\
  cell_assemble params_single
    (Ws.mk (Matrix 0 []) [0%float] [] 0 [] (Matrix 0 []) [])
  = Raise IndexError /\
  result_map Ws.B
    (cell_bc params_single
       (Ws.mk (Matrix 0 []) [0%float] [] 0 [] (Matrix 0 []) []))
  = Ok [0.25%float].
Proof.
  destruct (single_node_assembly_raises params_single
              (Ws.mk (Matrix 0 []) [0%float] [] 0 [] (Matrix 0 []) [])
              eq_refl) as (H1 & H2 & H3 & H4).
  exact (conj H1 (conj H2 (conj H3 (H4 eq_refl)))).
Defined.


Lemma zero_s_identity_map_witness :
  exists w1 w2,
    cell_assemble params_frozen empty_ws = Ok w1 /\
    cell_bc params_frozen w1 = Ok w2 /\
    exists U_n,
      update (Ws.A w2) (Ws.B w2) [-0; 0x1p-1074]%float = Ok U_n /\
      Forall (fun y => PrimFloat.is_finite y = true) U_n /\
      Forall2 (fun y' y => PrimFloat.eqb y' y = true /\
                           (PrimFloat.eqb y 0%float = false -> y' = y))
        U_n [-0; 0x1p-1074]%float /\
      (Par.s params_frozen = 0%float -> U_n = [0; 0x1p-1074]%float).
Proof.
  destruct (zero_s_identity_map params_frozen empty_ws ltac:(simpl; lia) eq_refl)
    as (w1 & w2 & Ha & Hb & _ & _ & _ & _ & _ & _ & Hupd & _).
  exists w1, w2. split; [exact Ha|]. split; [exact Hb|].
  exact (Hupd [-0; 0x1p-1074]%float eq_refl ltac:(repeat constructor)).
Defined.

Lemma assembly_and_march_deterministic_witness :
  result_map (fun v => (Ws.A v, Ws.B v))
    (v <- cell_assemble params_small ws_small ;; cell_bc params_small v)
  = result_map (fun v => (Ws.A v, Ws.B v))
      (v <- cell_assemble params_small_other ws_small_other ;;
       cell_bc params_small_other v) /\
  result_map Ws.U (v <- cell_init params_small ws_small ;;
                   cell_march params_small v)
  = result_map Ws.U (v <- cell_init params_small_other ws_small_other ;;
                     cell_march params_small_other v) /\
  result_map Ws.U (cell_march params_small ws_small_ready)
  = result_map Ws.U (cell_march params_small_other ws_small_ready_other).
Proof.
  destruct (assembly_and_march_deterministic params_small params_small_other
              ws_small ws_small_other) as (H1 & H2 & _).
  destruct (assembly_and_march_deterministic params_small params_small_other
              ws_small_ready ws_small_ready_other) as (_ & _ & H3).
  refine (conj (H1 eq_refl eq_refl)
            (conj (H2 eq_refl eq_refl eq_refl eq_refl eq_refl)
               (H3 _ eq_refl))).
  repeat split; reflexivity.
Defined.


Lemma configuration_rejection_witness :
  (ZeroDivisionError = ZeroDivisionError /\
   (Cfg.n config_no_step = (-1)%Z \/ Cfg.m config_no_step = 0%Z \/
    is_zero (fpow (of_quot (F := float) (Cfg.xL config_no_step - Cfg.x0 config_no_step)
                     (Cfg.n config_no_step + 1)) 2) = true) \/
   ZeroDivisionError = OverflowError /\
   (is_inf (of_quot (F := float) (Cfg.xL config_no_step - Cfg.x0 config_no_step)
              (Cfg.n config_no_step + 1)) = true \/
    is_inf (of_quot (F := float) (Cfg.T config_no_step) (Cfg.m config_no_step)) = true \/
    is_inf (fpow (of_quot (F := float) (Cfg.xL config_no_step - Cfg.x0 config_no_step)
                    (Cfg.n config_no_step + 1)) 2) = true)) /\
  is_ok (cell_params (F := float) notebook) = true /\
  (exists p, cell_params config_negative_nodes = Ok p /\
             cell_assemble p empty_ws = Raise ValueError) /\
  (exists p w1, cell_params config_no_node = Ok p /\
                cell_assemble p empty_ws = Ok w1 /\
                cell_bc p w1 = Raise IndexError).
Proof.
  split; [|split; [|split]].
  - exact (proj1 (@configuration_rejection float float_scalar config_no_step)
             ZeroDivisionError
             ltac:(vm_compute; reflexivity)).
  - apply (proj1 (proj2 (configuration_rejection (F := float) notebook))).
    repeat split; (vm_compute; (reflexivity || discriminate)).
  - eexists. split; [vm_compute; reflexivity|].
    apply (configuration_rejection config_negative_nodes);
      [vm_compute; reflexivity|simpl; lia].
  - eexists.
    destruct (configuration_rejection config_no_node) as (_ & _ & _ & H4).
    destruct (H4 _ empty_ws ltac:(vm_compute; reflexivity) eq_refl)
      as (w1 & Ha & Hb).
    exists w1. split; [vm_compute; reflexivity|]. split; [exact Ha|exact Hb].
Defined.

(** A rod of length [10**200]: the spacing [2.5e198] is a float, its square
    is not, and the parameter cell raises [OverflowError]. *)
Example long_rod_overflows :
  result_map Par.dX (cell_params config_long_rod) = Raise OverflowError /\
  is_inf (of_quot (F := float) (Cfg.xL config_long_rod - Cfg.x0 config_long_rod)
            (Cfg.n config_long_rod + 1)) = false /\
  is_inf (fpow (of_quot (F := float) (Cfg.xL config_long_rod - Cfg.x0 config_long_rod)
                  (Cfg.n config_long_rod + 1)) 2) = true.
Proof. repeat split; vm_compute; reflexivity. Qed.

(** * Further properties of the notebook *)

(** ** Time stamps and final state of the marching loop *)

Section TimeAxis.
Context {F : Type} `{Scalar F}.

Lemma march_step_frame (p : Par.params F) (i : Z) (v v' : Ws.workspace F) :
  march_step p i v = Ok v' ->
  Ws.A v' = Ws.A v /\ Ws.B v' = Ws.B v /\ Ws.x v' = Ws.x v /\
  Ws.t0 v' = Ws.t0 v.
Proof.
  unfold march_step. intros Hs.
  apply bind_ok in Hs as (u & _ & Hs). apply bind_ok in Hs as (U1 & _ & Hs).
  apply bind_ok in Hs as (b & _ & Hs). apply bind_ok in Hs as (t1 & _ & Hs).
  by injection Hs as <-.
Qed.

Lemma cell_init_frame (p : Par.params F) (v v' : Ws.workspace F) :
  cell_init p v = Ok v' ->
  Ws.A v' = Ws.A v /\ Ws.B v' = Ws.B v /\ Ws.x v' = Ws.x v /\
  Ws.t0 v' = Ws.t0 v /\ Ws.U_xt v' = Ws.U_xt v.
Proof.
  unfold cell_init. intros Hs.
  apply bind_ok in Hs as (U0 & _ & Hs). apply bind_ok in Hs as (U1 & _ & Hs).
  apply bind_ok in Hs as (t_0 & _ & Hs). apply bind_ok in Hs as (t_1 & _ & Hs).
  by injection Hs as <-.
Qed.

Lemma time_stamps_core (p : Par.params F) (w w1 w2 : Ws.workspace F) :
  Ws.t w1 !! 0%nat = Some (of_int (Ws.t0 w)) ->
  march_inv p w1 (Z.to_nat (Par.m p - 1)) w2 ->
  forall k, (k <= Z.to_nat (Par.m p - 1))%nat ->
    Ws.t w2 !! k
    = Some (Nat.iter k (fun a => fadd a (Par.dT p)) (of_int (Ws.t0 w))).
Proof.
  intros Ht0 (_ & _ & _ & _ & _ & _ & _ & _ & Hzero & _ & Htrec).
  induction k as [|k IH]; intros Hk.
  - by rewrite Hzero.
  - destruct (Htrec k) as (a & Ha & Ha'); [lia|].
    rewrite IH in Ha by lia. injection Ha as <-. exact Ha'.
Qed.

(** X6: after the initialisation cell and the marching loop, [t] holds [m]
    time stamps and [t[k]] is [t0] with [dT] added [k] times, one addition
    per loop iteration (the loop accumulates, it never multiplies [k] by
    [dT]). *)
Theorem time_stamps_accumulate (p : Par.params F) (w : Ws.workspace F) :
  well_shaped w -> (0 <= Par.n p)%Z ->
  length (Ws.U_xt w) = Z.to_nat (Par.n p) -> (1 <= Par.m p)%Z ->
  exists w1 w2,
    cell_init p w = Ok w1 /\ cell_march p w1 = Ok w2 /\
    length (Ws.t w2) = Z.to_nat (Par.m p) /\
    forall k, (k < Z.to_nat (Par.m p))%nat ->
      Ws.t w2 !! k
      = Some (Nat.iter k (fun a => fadd a (Par.dT p)) (of_int (Ws.t0 w))).
Proof.
  intros Hw Hn HU Hm.
  destruct (march_from_init p w) as
    (w1 & w2 & Hinit & Hrun & _ & _ & _ & Ht0 & Hinv); [done..|].
  exists w1, w2. do 2 (split; [done|]). split.
  - by destruct Hinv as (_ & _ & _ & _ & Hlen & _).
  - intros k Hk. apply (time_stamps_core p w w1 w2 Ht0 Hinv). lia.
Qed.

(** X7: when the marching loop is over, the current state [U_xt] is the last
    row of [U], and [A], [B], the grid [x] and [t0] are what they were
    before the initialisation cell. *)
Theorem final_state_is_last_row (p : Par.params F) (w : Ws.workspace F) :
  well_shaped w -> (0 <= Par.n p)%Z ->
  length (Ws.U_xt w) = Z.to_nat (Par.n p) -> (1 <= Par.m p)%Z ->
  exists w1 w2,
    cell_init p w = Ok w1 /\ cell_march p w1 = Ok w2 /\
    rows (Ws.U w2) !! (Z.to_nat (Par.m p) - 1)%nat = Some (Ws.U_xt w2) /\
    length (Ws.U_xt w2) = Z.to_nat (Par.n p) /\
    Ws.A w2 = Ws.A w /\ Ws.B w2 = Ws.B w /\ Ws.x w2 = Ws.x w /\
    Ws.t0 w2 = Ws.t0 w.
Proof.
  intros Hw Hn HU Hm.
  destruct (march_from_init p w) as
    (w1 & w2 & Hinit & Hrun & HA1 & HB1 & HU1 & _ & Hinv); [done..|].
  destruct Hinv as (HA & HB & _ & _ & _ & Hlen & Hlast & _).
  destruct (cell_init_frame p w w1 Hinit) as (_ & _ & Hx1 & Ht1 & _).
  exists w1, w2. do 2 (split; [done|]).
  split; [by replace (Z.to_nat (Par.m p) - 1)%nat
            with (Z.to_nat (Par.m p - 1)) by lia|].
  split; [by rewrite Hlen, HU1|].
  split; [by rewrite HA|]. split; [by rewrite HB|].
  rewrite <- Hx1, <- Ht1. split.
  - apply (for_in_preserves Ws.x (march_step p) (py_range (Par.m p - 1)));
      [|exact Hrun].
    intros i a a' Hs. by destruct (march_step_frame p i a a' Hs) as (_ & _ & ? & _).
  - apply (for_in_preserves Ws.t0 (march_step p) (py_range (Par.m p - 1)));
      [|exact Hrun].
    intros i a a' Hs. by destruct (march_step_frame p i a a' Hs) as (_ & _ & _ & ?).
Qed.
End TimeAxis.

Section MatrixSymmetry.
Context {F : Type} `{Scalar F}.

(** X16: for [n >= 2] the assembled matrix is symmetric: the assembly loop
    leaves the same value in [A[i, j]] and in [A[j, i]]. *)
Theorem assembled_matrix_symmetric (p : Par.params F) (w : Ws.workspace F) :
  (2 <= Par.n p)%Z ->
  exists w', cell_assemble p w = Ok w' /\
    forall i j, (i < Z.to_nat (Par.n p))%nat -> (j < Z.to_nat (Par.n p))%nat ->
      exists a, rows (Ws.A w') !! i ≫= (fun row => row !! j) = Some a /\
                rows (Ws.A w') !! j ≫= (fun row => row !! i) = Some a.
Proof.
  intros Hn. eexists. split; [by apply cell_assemble_spec|].
  intros i j Hi Hj. cbn [Ws.A]. eexists.
  split; [by apply tridiag_lookup|].
  rewrite tridiag_lookup by done. f_equal. unfold tri_entry.
  rewrite (Nat.eqb_sym j i), (orb_comm (i =? j + 1)%nat). reflexivity.
Qed.
End MatrixSymmetry.

(** ** The degenerate update under any order of summation *)

Section SummationOrder.

Lemma add_zeros (a b : float) : fzero a -> fzero b -> fzero (a + b)%float.
Proof.
  intros [c Ha] [d Hb]. unfold fzero. rewrite add_spec, Ha, Hb.
  destruct c, d; simpl; eauto.
Qed.

Lemma add_zero_settled (z y : float) :
  fzero z -> settled y -> (z + y)%float = y.
Proof.
  unfold settled. intros [b Hz] Hy. apply Prim2SF_inj.
  rewrite add_spec, Hz. unfold SF64add, SFadd.
  destruct (Prim2SF y) as [c|c| |c m e]; try done.
  subst c. by destruct b.
Qed.

Lemma sums_to_zeros (l : list float) (r : float) :
  sums_to l r -> Forall fzero l -> fzero r.
Proof.
  induction 1 as [y|l l1 l2 a b Hl _ IH1 _ IH2]; intros Hz.
  - by inversion Hz.
  - rewrite Hl in Hz. apply Forall_app in Hz as [Hz1 Hz2].
    apply add_zeros; auto.
Qed.

(** Zeros of either sign and one number that is [+0.0] or nonzero: every
    summation returns that number. *)
Lemma sums_to_settled (l : list float) (r : float) :
  sums_to l r ->
  forall (y : float) (l' : list float),
    l ≡ₚ y :: l' -> Forall fzero l' -> settled y -> r = y.
Proof.
  induction 1 as [y0|l l1 l2 a b Hl H1 IH1 H2 IH2]; intros y l' Hp Hz Hy.
  - apply Permutation_singleton_l in Hp. by injection Hp as ->.
  - rewrite Hl in Hp.
    assert (y ∈ l1 ++ l2) as Hin by (rewrite Hp; left).
    apply elem_of_app in Hin as [Hin|Hin];
      apply elem_of_Permutation in Hin as [k Hk].
    + rewrite Hk in Hp. simpl in Hp. apply Permutation_cons_inv in Hp.
      rewrite <- Hp in Hz. apply Forall_app in Hz as [Hz1 Hz2].
      rewrite (IH1 y k Hk Hz1 Hy).
      apply add_zero_r; [done|]. by apply (sums_to_zeros l2).
    + rewrite Hk in Hp.
      rewrite <- Permutation_middle in Hp. apply Permutation_cons_inv in Hp.
      rewrite <- Hp in Hz. apply Forall_app in Hz as [Hz1 Hz2].
      rewrite (IH2 y k Hk Hz2 Hy).
      apply add_zero_settled; [|done]. by apply (sums_to_zeros l1).
Qed.

(** The left-to-right sum of [dot] is one of the summations. *)
Lemma fold_left_sums_to (l : list (float * float)) :
  forall (lacc : list float) (acc : float),
    sums_to lacc acc ->
    sums_to (lacc ++ map (fun q => q.1 * q.2)%float l)
      (fold_left (fun acc q => fadd acc (fmul q.1 q.2)) l acc).
Proof.
  induction l as [|q l IH]; intros lacc acc Hacc; simpl.
  - by rewrite app_nil_r.
  - rewrite (cons_middle _ lacc), app_assoc. apply IH.
    eapply sums_split; [reflexivity|exact Hacc|constructor].
Qed.

Lemma dot_sums_to (row u : list float) :
  sums_to (inner_products row u 1) (dot row u).
Proof.
  unfold inner_products, dot. rewrite zip_with_zip.
  change (of_int 0) with 0%float.
  replace (uncurry PrimFloat.mul <$> zip row u)
    with (map (fun q : float * float => (q.1 * q.2)%float) (zip row u))
    by (apply map_ext; by intros [? ?]).
  apply (fold_left_sums_to (zip row u) [0%float]). constructor.
Qed.

Lemma settled_nonzero (y : float) :
  ffinite y -> PrimFloat.eqb y 0 = false -> settled y.
Proof.
  unfold ffinite, settled. rewrite FloatAxioms.eqb_spec.
  change (Prim2SF 0) with (S754_zero false).
  by destruct (Prim2SF y) as [c|c| |c m e].
Qed.

Lemma eqb_zeros (a b : float) : fzero a -> fzero b -> PrimFloat.eqb a b = true.
Proof.
  intros [c Ha] [d Hb]. by rewrite FloatAxioms.eqb_spec, Ha, Hb.
Qed.

Lemma products_of_frozen_row (n : nat) (s : float) (u : list float) (i : nat)
    (y : float) :
  fzero s -> length u = n -> Forall ffinite u -> u !! i = Some y ->
  exists rest,
    zip_with PrimFloat.mul (tri_row n s i) u ≡ₚ y :: rest /\ Forall fzero rest.
Proof.
  intros Hs Hlen Hu Hy.
  pose proof (lookup_lt_Some _ _ _ Hy) as Hi.
  set (l := zip_with PrimFloat.mul (tri_row n s i) u).
  assert (forall j z, l !! j = Some z ->
    exists uj, u !! j = Some uj /\ z = (tri_entry s i j * uj)%float) as Hl.
  { intros j z Hz. unfold l in Hz.
    apply lookup_zip_with_Some in Hz as (a & uj & -> & Ha & Huj).
    exists uj. split; [done|]. unfold tri_row in Ha.
    rewrite lookup_map in Ha.
    destruct (seq 0 n !! j) as [j'|] eqn:Hj; [|done].
    apply lookup_seq in Hj as [-> _]. by injection Ha as <-. }
  assert (l !! i = Some y) as Hli.
  { unfold l. rewrite lookup_zip_with. unfold tri_row.
    rewrite lookup_map_seq by lia. simpl. rewrite Hy. simpl.
    rewrite tri_entry_diag by done. f_equal. apply mul_one_l.
    exact (Forall_lookup_1 _ _ _ _ Hu Hy). }
  exists (take i l ++ drop (S i) l). split.
  - rewrite <- (take_drop_middle l i y Hli) at 1.
    by rewrite <- Permutation_middle.
  - apply Forall_app. split; apply Forall_lookup; intros j z Hz.
    + apply lookup_take_Some in Hz as [Hz Hj].
      destruct (Hl j z Hz) as (uj & Huj & ->).
      apply mul_zero_l; [apply tri_entry_off; [done|lia]|].
      exact (Forall_lookup_1 _ _ _ _ Hu Huj).
    + rewrite lookup_drop in Hz.
      destruct (Hl _ z Hz) as (uj & Huj & ->).
      apply mul_zero_l; [apply tri_entry_off; [done|lia]|].
      exact (Forall_lookup_1 _ _ _ _ Hu Huj).
Qed.

(** X17: with [s == 0] and [n >= 2], whatever order and grouping
    [np.matmul] adds the products of row [i] of [A] and a finite state [U_k]
    in, and however many accumulators it starts from [+0.0], the entry
    [(A . U_k)[i] + B[i]] equals [U_k[i]] under the equality of floats, bit
    for bit when [U_k[i]] is not zero; when [s] is [+0.0] it is [U_k[i]] with
    [-0.0] turned into [+0.0].  The left-to-right sum of the embedding is
    one of these summations. *)
Theorem zero_s_update_any_order (p : Par.params float) (w : Ws.workspace float) :
  (2 <= Par.n p)%Z -> is_zero (Par.s p) = true ->
  exists w1 w2,
    cell_assemble p w = Ok w1 /\ cell_bc p w1 = Ok w2 /\
    forall U_k, length U_k = Z.to_nat (Par.n p) ->
      Forall (fun y => PrimFloat.is_finite y = true) U_k ->
      forall i row b y,
        rows (Ws.A w2) !! i = Some row -> Ws.B w2 !! i = Some b ->
        U_k !! i = Some y ->
        sums_to (inner_products row U_k 1) (dot row U_k) /\
        forall k r, sums_to (inner_products row U_k k) r ->
          PrimFloat.eqb (r + b) y = true /\
          (PrimFloat.eqb y 0%float = false -> (r + b)%float = y) /\
          (Par.s p = 0%float -> (r + b)%float = unsigned_zero y).
Proof.
  intros Hn Hs. pose proof (is_zero_class _ Hs) as Hz.
  set (n := Z.to_nat (Par.n p)).
  eexists _, _. split; [by apply cell_assemble_spec|].
  split; [apply cell_bc_spec; [lia|apply length_replicate]|].
  cbn [Ws.A Ws.B]. fold n.
  replace (Z.to_nat (Par.n p - 1)) with (n - 1)%nat by lia.
  intros U_k Hlen Hfin i row b y Hrow Hb Hy.
  split; [apply dot_sums_to|]. intros k r Hr.
  pose proof (lookup_lt_Some _ _ _ Hy) as Hi.
  assert (Forall ffinite U_k) as Hu
    by (eapply Forall_impl; [exact Hfin|apply is_finite_class]).
  pose proof (Forall_lookup_1 _ _ _ _ Hu Hy) as Hyf.
  cbn [rows tridiag] in Hrow. rewrite lookup_map_seq in Hrow by lia.
  injection Hrow as <-.
  rewrite dirichlet_lookup in Hb by lia. injection Hb as <-.
  pose proof (dirichlet_entry_zero n (Par.s p) i Hz) as Hbz.
  destruct (products_of_frozen_row n (Par.s p) U_k i y Hz Hlen Hu Hy)
    as (rest & Hperm & Hrest).
  assert (inner_products (tri_row n (Par.s p) i) U_k k
          ≡ₚ y :: (replicate k 0%float ++ rest)) as Hall.
  { unfold inner_products. rewrite Hperm. by rewrite <- Permutation_middle. }
  assert (Forall fzero (replicate k 0%float ++ rest)) as Hzeros.
  { apply Forall_app. split; [|done].
    apply Forall_replicate, fzero_zero. }
  destruct (PrimFloat.eqb y 0) eqn:Hy0.
  - pose proof (is_zero_class _ Hy0) as Hyz.
    assert (fzero r) as Hrz.
    { apply (sums_to_zeros _ _ Hr). rewrite Hall. by constructor. }
    split; [apply eqb_zeros; [by apply add_zeros|done]|].
    split; [done|]. intros Hs0. unfold unsigned_zero. rewrite Hy0.
    unfold dirichlet_entry. rewrite Hs0.
    replace (if ((i =? 0) || (i =? n - 1))%nat then 0%float else of_int 0)
      with 0%float by (by destruct ((i =? 0) || (i =? n - 1))%nat).
    apply add_zero_settled; [done|apply settled_zero].
  - pose proof (settled_nonzero y Hyf Hy0) as Hys.
    rewrite (sums_to_settled _ _ Hr y _ Hall Hzeros Hys).
    rewrite (add_zero_r y _ Hys Hbz).
    split; [|split; [done|]].
    + rewrite <- (unsigned_zero_nonzero y Hy0) at 1.
      by apply unsigned_zero_eqb.
    + intros _. by rewrite unsigned_zero_nonzero.
Qed.
End SummationOrder.

(** ** How the initialisation cell ends *)

Section Initialisation.
Context {F : Type} `{Scalar F}.

Lemma norm_index_first (len : nat) :
  (0 < len)%nat -> norm_index len 0 = Ok 0%nat.
Proof. intros Hlen. apply (norm_index_in len 0 Hlen). Qed.

Lemma broadcast_to_mismatch (c : nat) (v : list F) :
  length v <> c -> length v <> 1%nat -> broadcast_to c v = Raise ValueError.
Proof.
  intros Hc Hone. unfold broadcast_to.
  destruct v as [|a [|b l]]; [|done|].
  - by destruct (Nat.eqb_spec (length (@nil F)) c).
  - by destruct (Nat.eqb_spec (length (a :: b :: l)) c).
Qed.

Lemma broadcast_to_fits (c : nat) (v : list F) :
  length v = c \/ length v = 1%nat ->
  exists row, broadcast_to c v = Ok row /\ length row = c.
Proof.
  intros Hlen. unfold broadcast_to.
  destruct v as [|a [|b l]].
  - destruct Hlen as [<-|?]; [|done]. by eexists.
  - eexists. split; [done|]. apply length_replicate.
  - destruct Hlen as [<-|?]; [|done]. rewrite Nat.eqb_refl. by eexists.
Qed.

(** X18: the cell that initialises [U] and [t] raises [ValueError] for a
    negative [m] or [n] (allocation of [U]), [IndexError] for [m = 0] (row 0
    of an array with no row), [ValueError] when [U_xt] has neither [n]
    entries nor a single one (it cannot be broadcast to a row), and returns
    otherwise, with [U] of [m] rows whose first is [U_xt] (a single entry
    repeated [n] times) and [t] of [m] zeros but for [t[0] = t0]; [t0] is
    taken to be an int that a float holds exactly, as the notebook's
    [t0 = 0] is. *)
Theorem cell_init_outcome (p : Par.params F) (w : Ws.workspace F) :
  ((Par.m p < 0)%Z \/ (Par.n p < 0)%Z -> cell_init p w = Raise ValueError) /\
  (Par.m p = 0%Z -> (0 <= Par.n p)%Z -> cell_init p w = Raise IndexError) /\
  ((1 <= Par.m p)%Z -> (0 <= Par.n p)%Z ->
   length (Ws.U_xt w) <> Z.to_nat (Par.n p) -> length (Ws.U_xt w) <> 1%nat ->
   cell_init p w = Raise ValueError) /\
  ((1 <= Par.m p)%Z -> (0 <= Par.n p)%Z ->
   length (Ws.U_xt w) = Z.to_nat (Par.n p) \/ length (Ws.U_xt w) = 1%nat ->
   (Z.abs (Ws.t0 w) < 2 ^ 53)%Z ->
   exists w' row,
     cell_init p w = Ok w' /\
     broadcast_to (Z.to_nat (Par.n p)) (Ws.U_xt w) = Ok row /\
     length row = Z.to_nat (Par.n p) /\
     rows (Ws.U w')
     = row :: replicate (Z.to_nat (Par.m p) - 1)
                (replicate (Z.to_nat (Par.n p)) (of_int 0)) /\
     Ws.t w'
     = of_int (Ws.t0 w) :: replicate (Z.to_nat (Par.m p) - 1) (of_int 0)).
Proof.
  unfold cell_init, np_zeros2, np_zeros1.
  split; [|split; [|split]].
  - intros Hneg.
    destruct (Z.ltb_spec (Par.m p) 0), (Z.ltb_spec (Par.n p) 0);
      simpl; (done || lia).
  - intros -> Hn. destruct (Z.ltb_spec (Par.n p) 0); [lia|]. reflexivity.
  - intros Hm Hn Hlen Hone.
    destruct (Z.ltb_spec (Par.m p) 0), (Z.ltb_spec (Par.n p) 0); try lia.
    cbn [orb bind]. unfold setrow. cbn [rows ncols].
    rewrite length_replicate, norm_index_first by lia. cbn [bind].
    by rewrite broadcast_to_mismatch.
  - intros Hm Hn Hlen _.
    destruct (Z.ltb_spec (Par.m p) 0), (Z.ltb_spec (Par.n p) 0); try lia.
    cbn [orb bind]. unfold setrow, setitem. cbn [rows ncols].
    rewrite !length_replicate, !norm_index_first by lia. cbn [bind].
    destruct (broadcast_to_fits _ _ Hlen) as (row & Hrow & Hl).
    rewrite Hrow. cbn [bind]. eexists _, row. split; [reflexivity|].
    split; [done|]. split; [done|]. cbn [Ws.U Ws.t rows].
    destruct (Z.to_nat (Par.m p)) as [|k] eqn:Hk; [lia|].
    simpl. by rewrite Nat.sub_0_r.
Qed.
End Initialisation.

(** ** The further properties at concrete inputs *)

Lemma time_stamps_accumulate_witness :
  exists w1 w2,
    cell_init params_small ws_small = Ok w1 /\
    cell_march params_small w1 = Ok w2 /\
    length (Ws.t w2) = Z.to_nat (Par.m params_small) /\
    forall k, (k < Z.to_nat (Par.m params_small))%nat ->
      Ws.t w2 !! k
      = Some (Nat.iter k (fun a => fadd a (Par.dT params_small))
                (of_int (Ws.t0 ws_small))).
Proof.
  exact (time_stamps_accumulate params_small ws_small
           ltac:(repeat split; reflexivity) ltac:(cbn; lia) eq_refl
           ltac:(cbn; lia)).
Defined.

Lemma final_state_is_last_row_witness :
  exists w1 w2,
    cell_init params_small ws_small = Ok w1 /\
    cell_march params_small w1 = Ok w2 /\
    rows (Ws.U w2) !! (Z.to_nat (Par.m params_small) - 1)%nat
    = Some (Ws.U_xt w2) /\
    length (Ws.U_xt w2) = Z.to_nat (Par.n params_small) /\
    Ws.A w2 = Ws.A ws_small /\ Ws.B w2 = Ws.B ws_small /\
    Ws.x w2 = Ws.x ws_small /\ Ws.t0 w2 = Ws.t0 ws_small.
Proof.
  exact (final_state_is_last_row params_small ws_small
           ltac:(repeat split; reflexivity) ltac:(cbn; lia) eq_refl
           ltac:(cbn; lia)).
Defined.

Lemma assembled_matrix_symmetric_witness :
  exists w', cell_assemble params_small empty_ws = Ok w' /\
    forall i j, (i < Z.to_nat (Par.n params_small))%nat ->
      (j < Z.to_nat (Par.n params_small))%nat ->
      exists a, rows (Ws.A w') !! i ≫= (fun row => row !! j) = Some a /\
                rows (Ws.A w') !! j ≫= (fun row => row !! i) = Some a.
Proof.
  exact (assembled_matrix_symmetric params_small empty_ws ltac:(cbn; lia)).
Defined.

Lemma zero_s_update_any_order_witness :
  exists w1 w2,
    cell_assemble params_frozen empty_ws = Ok w1 /\
    cell_bc params_frozen w1 = Ok w2 /\
    forall i row b y,
      rows (Ws.A w2) !! i = Some row -> Ws.B w2 !! i = Some b ->
      [-0; 0x1p-1074]%float !! i = Some y ->
      sums_to (inner_products row [-0; 0x1p-1074]%float 1)
        (dot row [-0; 0x1p-1074]%float) /\
      forall k r, sums_to (inner_products row [-0; 0x1p-1074]%float k) r ->
        PrimFloat.eqb (r + b) y = true /\
        (PrimFloat.eqb y 0%float = false -> (r + b)%float = y) /\
        (Par.s params_frozen = 0%float -> (r + b)%float = unsigned_zero y).
Proof.
  destruct (zero_s_update_any_order params_frozen empty_ws
              ltac:(simpl; lia) eq_refl) as (w1 & w2 & Ha & Hb & Hall).
  exists w1, w2. split; [exact Ha|]. split; [exact Hb|].
  exact (Hall [-0; 0x1p-1074]%float eq_refl ltac:(repeat constructor)).
Defined.

Lemma cell_init_outcome_witness :
  cell_init params_small
    (Ws.mk (Matrix 0 []) [] [] 0 [1; 2]%float (Matrix 0 []) [])
  = Raise ValueError /\
  exists w' row,
    cell_init params_small ws_small = Ok w' /\
    broadcast_to (Z.to_nat (Par.n params_small)) (Ws.U_xt ws_small) = Ok row /\
    length row = Z.to_nat (Par.n params_small) /\
    rows (Ws.U w')
    = row :: replicate (Z.to_nat (Par.m params_small) - 1)
               (replicate (Z.to_nat (Par.n params_small)) (of_int 0)) /\
    Ws.t w'
    = of_int (Ws.t0 ws_small)
      :: replicate (Z.to_nat (Par.m params_small) - 1) (of_int 0).
Proof.
  split.
  - exact (proj1 (proj2 (proj2 (cell_init_outcome params_small
             (Ws.mk (Matrix 0 []) [] [] 0 [1; 2]%float (Matrix 0 []) []))))
             ltac:(simpl; lia) ltac:(simpl; lia) ltac:(simpl; lia)
             ltac:(simpl; lia)).
  - exact (proj2 (proj2 (proj2 (cell_init_outcome params_small ws_small)))
             ltac:(simpl; lia) ltac:(simpl; lia) (or_introl eq_refl)
             ltac:(simpl; lia)).
Defined.
